(** * asr_demo: a shallow embedding of [main.py]

    The script records microphone audio into a sound file and, once the
    recording is interrupted, scores four speech recognisers against a
    reference sentence.  This development embeds

    - the text normalisation and the error measures of
      [ASR.compute_error_rate],
    - the streaming loop of [ASR.vosk_recognition],
    - the hand-off of audio blocks from [callback] to the write loop,
    - the choice and the opening of the output file,
    - the evaluation that runs in the [KeyboardInterrupt] handler,

    and proves properties of them.

    Python [str] values are lists of characters.  The character tables
    of module [Py] cover the ASCII range, and what is proved with them
    is about ASCII sentences; module [Text] has the same code over any
    character set, with the tables of Python as parameters.  Python
    floats that are quotients of small integers are exact rationals [Q],
    compared with [==]. *)

From Stdlib Require Import String Ascii List ZArith QArith Lia Bool.
From stdpp Require Import gmap strings list.
From Equations Require Import Equations.
From Stdlib Require DecimalZ.
Import ListNotations.
Open Scope list_scope.

(** ** Python values *)

Module Py.

(** A [str]: a sequence of characters. *)
Definition str := list ascii.

(** A literal, written as a Rocq string. *)
Definition s (lit : string) : str := list_ascii_of_string lit.

(** The exceptions that the embedded code can raise. *)
Inductive exn :=
| ZeroDivisionError
| OSError
| KeyError
| ValueError
| RuntimeError.

(** A computation that returns a value or raises. *)
Inductive result (A : Type) :=
| Ok (a : A)
| Raise (e : exn).
Arguments Ok {A} a.
Arguments Raise {A} e.

Definition bind {A B} (m : result A) (k : A -> result B) : result B :=
  match m with
  | Ok a => k a
  | Raise e => Raise e
  end.

(** [float(a) / float(b)] on natural numbers. *)
Definition truediv (a b : nat) : result Q :=
  match b with
  | O => Raise ZeroDivisionError
  | S _ => Ok (Z.of_nat a # Pos.of_nat b)
  end.

(** [str.isascii]: every character is below 128. *)
Definition isascii (t : str) : bool :=
  forallb (fun c => nat_of_ascii c <? 128) t.

(** [str.isspace] on the ASCII range: tab, line feed, vertical tab, form
    feed, carriage return, the four separators 28-31 and the space. *)
Definition isspace (c : ascii) : bool :=
  let n := nat_of_ascii c in
  ((9 <=? n) && (n <=? 13)) || ((28 <=? n) && (n <=? 32)).

(** [str.lower] on one character of the ASCII range. *)
Definition lower (c : ascii) : ascii :=
  let n := nat_of_ascii c in
  if (65 <=? n) && (n <=? 90) then ascii_of_nat (n + 32) else c.

(** [unicodedata.category(c).startswith("P")] on the ASCII range. *)
Definition ispunct (c : ascii) : bool :=
  let n := nat_of_ascii c in
  match n with
  | 33 | 34 | 35 | 37 | 38 | 39 | 40 | 41 | 42 | 44 | 45 | 46 | 47
  | 58 | 59 | 63 | 64 | 91 | 92 | 93 | 95 | 123 | 125 => true
  | _ => false
  end.

(** [s.lstrip()], [s.rstrip()] and [s.strip()]. *)
Fixpoint lstrip (t : str) : str :=
  match t with
  | [] => []
  | c :: t' => if isspace c then lstrip t' else t
  end.

Definition rstrip (t : str) : str := rev (lstrip (rev t)).

Definition strip (t : str) : str := rstrip (lstrip t).

(** A sentence that does not start with whitespace. *)
Definition lclean (t : str) : Prop :=
  match t with
  | [] => True
  | c :: _ => isspace c = false
  end.

(** [s.split(d)] for a one-character delimiter: the pieces between the
    occurrences of [d], empty pieces included. *)
Fixpoint split (d : ascii) (t : str) : list str :=
  match t with
  | [] => [[]]
  | c :: t' =>
      if Ascii.eqb c d then [] :: split d t'
      else match split d t' with
           | w :: ws => (c :: w) :: ws
           | [] => [[c]]
           end
  end.

End Py.

(** [result] is a monad: stdpp's [x ← m; k] sequences two computations
    and stops at the first exception. *)
#[global] Instance result_ret : MRet Py.result := @Py.Ok.
#[global] Instance result_bind : MBind Py.result :=
  fun A B k m => Py.bind m k.

(** ** The jiwer transforms and measures

    jiwer is the library behind [compute_error_rate]; its code is not part
    of the repository. *)

Module Jiwer.
Import Py.

(** Modelled from the spec: [jiwer.RemovePunctuation()] (library code,
    not in the repository) removes punctuation: it drops every
    punctuation character. *)
Definition RemovePunctuation (t : str) : str :=
  List.filter (fun c => negb (ispunct c)) t.

(** Modelled from the spec: [jiwer.ToLowerCase()] case-folds to lower
    case, [s.lower()]. *)
Definition ToLowerCase (t : str) : str := map lower t.

(** Modelled from the spec: [jiwer.Strip()] strips leading and trailing
    whitespace, [s.strip()]. *)
Definition Strip (t : str) : str := strip t.

(** Modelled from the spec: the word sequence of a sentence, for which
    the spec gives no rule, is the one of the library's default transform.
    Its first step, [jiwer.RemoveMultipleSpaces()]: every run of two or
    more whitespace characters becomes one space; [skipping] is set
    inside such a run. *)
Fixpoint remove_multiple_spaces (skipping : bool) (t : str) : str :=
  match t with
  | [] => []
  | c :: t' =>
      if isspace c then
        if skipping then remove_multiple_spaces true t'
        else match t' with
             | d :: _ =>
                 if isspace d then " "%char :: remove_multiple_spaces true t'
                 else c :: remove_multiple_spaces false t'
             | [] => [c]
             end
      else c :: remove_multiple_spaces false t'
  end.

Definition RemoveMultipleSpaces (t : str) : str :=
  remove_multiple_spaces false t.

(** Modelled from the spec: the last step of that transform,
    [jiwer.ReduceToListOfListOfWords()]: split on the space and keep the
    non-empty pieces. *)
Definition ReduceToListOfListOfWords (t : str) : list str :=
  List.filter (fun w => negb (Nat.eqb (length w) 0)) (split " "%char t).

(** Modelled from the spec: the words of a sentence, by the default
    transform of the word measures. *)
Definition wer_default (t : str) : list str :=
  ReduceToListOfListOfWords (Strip (RemoveMultipleSpaces t)).

(** Modelled from the spec: the tokens of the character measure are the
    characters of the stripped sentence. *)
Definition cer_default (t : str) : list ascii := Strip t.

(** *** Alignments *)

(** One step of an alignment of a reference with a hypothesis. *)
Inductive EditOp := Hit | Replace | Delete | Insert.

#[global] Instance EditOp_eq_dec : EqDecision EditOp.
Proof. solve_decision. Defined.

Definition cost (o : EditOp) : nat :=
  match o with
  | Hit => 0
  | _ => 1
  end.

Definition total_cost (ops : list EditOp) : nat :=
  list_sum (map cost ops).

Definition count_op (o : EditOp) (ops : list EditOp) : nat :=
  length (List.filter (fun o' => bool_decide (o' = o)) ops).

(** The cheaper of two alignments, the first one on a tie. *)
Definition cheaper (a b : list EditOp) : list EditOp :=
  if total_cost a <=? total_cost b then a else b.

Section Alignment.
Context {A : Type} `{EqDecision A}.

(** [aligns ops r h]: the steps [ops] turn the reference [r] into the
    hypothesis [h]. *)
Inductive aligns : list EditOp -> list A -> list A -> Prop :=
| aligns_nil : aligns [] [] []
| aligns_hit x ops r h :
    aligns ops r h -> aligns (Hit :: ops) (x :: r) (x :: h)
| aligns_replace x y ops r h :
    x <> y -> aligns ops r h -> aligns (Replace :: ops) (x :: r) (y :: h)
| aligns_delete x ops r h :
    aligns ops r h -> aligns (Delete :: ops) (x :: r) h
| aligns_insert y ops r h :
    aligns ops r h -> aligns (Insert :: ops) r (y :: h).

(** The step for the two heads: a hit when they are equal, a
    substitution otherwise. *)
Definition diagonal (x y : A) : EditOp :=
  if bool_decide (x = y) then Hit else Replace.

(** Modelled from the spec: a minimum-edit-distance alignment (the
    library computes its own with rapidfuzz), by recursion on both
    sequences: the cheapest of the diagonal step, deleting the reference
    head and inserting the hypothesis head. *)
Fixpoint editops_rec (r : list A) : list A -> list EditOp :=
  match r with
  | [] => fun h => repeat Insert (length h)
  | x :: r' =>
      fix against (h : list A) : list EditOp :=
        match h with
        | [] => Delete :: editops_rec r' []
        | y :: h' =>
            cheaper (diagonal x y :: editops_rec r' h')
              (cheaper (Delete :: editops_rec r' h) (Insert :: against h'))
        end
  end.

(** Modelled from the spec: the same alignment row by row, as the
    dynamic programme fills its table: the row of a reference holds its
    alignment with every suffix of the hypothesis, the longest first. *)
Fixpoint tails (h : list A) : list (list A) :=
  match h with
  | [] => [[]]
  | _ :: h' => h :: tails h'
  end.

Definition first_row (h : list A) : list (list EditOp) :=
  map (fun t => repeat Insert (length t)) (tails h).

Fixpoint next_row (x : A) (h : list A) (prev : list (list EditOp))
    : list (list EditOp) :=
  match h, prev with
  | [], p :: _ => [Delete :: p]
  | y :: h', p :: prev' =>
      let cur' := next_row x h' prev' in
      match prev', cur' with
      | d :: _, c :: _ =>
          cheaper (diagonal x y :: d) (cheaper (Delete :: p) (Insert :: c))
          :: cur'
      | _, _ => []
      end
  | _, [] => []
  end.

Fixpoint rows (r : list A) (h : list A) : list (list EditOp) :=
  match r with
  | [] => first_row h
  | x :: r' => next_row x h (rows r' h)
  end.

Definition editops (r h : list A) : list EditOp :=
  hd [] (rows r h).

End Alignment.

(** *** Measures *)

(** The fields of jiwer's [WordOutput] that the script reads, and the
    counts behind them. *)
Record WordOutput := {
  wer : Q;
  mer : Q;
  wil : Q;
  wip : Q;
  hits : nat;
  substitutions : nat;
  deletions : nat;
  insertions : nat
}.

(** Modelled from the spec: the measures of a reference and a hypothesis
    that are already split into tokens ([jiwer.process_words] and
    [jiwer.cer] are library code, not in the repository).  With S, D, I
    the substitutions, deletions and insertions of a minimum-edit-distance
    alignment and C the correct tokens: wer = (S+D+I)/N_ref,
    mer = (S+D+I)/(S+D+I+C), wip = (C/N_ref)*(C/N_hyp), wil = 1 - wip.
    The divisions are Python's; a hypothesis without tokens preserves no
    information, so its wip is 0.  The spec leaves the measures of a
    reference without tokens open, and nothing below is proved from what
    this definition does there: see [measures_of]. *)
Definition measures {A : Type} `{EqDecision A}
    (r h : list A) : result WordOutput :=
  let ops := editops r h in
  let S := count_op Replace ops in
  let D := count_op Delete ops in
  let I := count_op Insert ops in
  let C := length r - (S + D) in
  wer ← truediv (S + D + I) (length r);
  mer ← truediv (S + D + I) (S + D + I + C);
  wip ← (if 1 <=? length h
         then a ← truediv C (length r);
              b ← truediv C (length h);
              mret (a * b)%Q
         else mret 0%Q);
  mret {| wer := wer; mer := mer; wil := 1 - wip; wip := wip;
          hits := C; substitutions := S; deletions := D;
          insertions := I |}.

(** Modelled from the spec: [jiwer.process_words(reference, hypothesis)],
    the measures over the word sequences of the two sentences. *)
Definition process_words (reference hypothesis : str) : result WordOutput :=
  measures (wer_default reference) (wer_default hypothesis).

(** Modelled from the spec: [jiwer.cer(reference, hypothesis)], the same
    alignment at character granularity, without word tokenisation. *)
Definition cer (reference hypothesis : str) : result Q :=
  out ← measures (cer_default reference) (cer_default hypothesis);
  mret (wer out).

(** *** A reference without tokens

    Modelled from the spec: the measures of a reference without tokens
    are an open question of the spec, which names two policies, and the
    releases of jiwer differ in the same way: the measures are undefined
    and the library refuses the reference (the 3.x releases raise
    [ValueError]), or the library returns fallback values (the 4.x
    releases: no error for an empty hypothesis, else one insertion per
    token of the hypothesis, counted by wer, with mer = wil = 1 and
    wip = 0). *)
Inductive policy :=
| Refuses
| FallsBack.

Definition measures_of {A : Type} `{EqDecision A} (p : policy)
    (r h : list A) : result WordOutput :=
  match r, p with
  | [], Refuses => Raise ValueError
  | [], FallsBack =>
      match h with
      | [] =>
          Ok {| wer := 0; mer := 0; wil := 0; wip := 1;
                hits := 0; substitutions := 0; deletions := 0;
                insertions := 0 |}
      | _ :: _ =>
          Ok {| wer := Z.of_nat (length h) # 1; mer := 1; wil := 1; wip := 0;
                hits := 0; substitutions := 0; deletions := 0;
                insertions := length h |}
      end
  | _ :: _, _ => measures r h
  end.

Definition process_words_of (p : policy) (reference hypothesis : str)
    : result WordOutput :=
  measures_of p (wer_default reference) (wer_default hypothesis).

Definition cer_of (p : policy) (reference hypothesis : str) : result Q :=
  out ← measures_of p (cer_default reference) (cer_default hypothesis);
  mret (wer out).

End Jiwer.

(** ** The recognisers and the score: class [ASR] *)

Module ASR.
Import Py.

(** The five rates that [compute_error_rate] returns. *)
Record ErrorMetrics := {
  wer : Q;
  mer : Q;
  wil : Q;
  wip : Q;
  cer : Q
}.

(** The preprocessing applied to each sentence: punctuation, case,
    surrounding whitespace, in that order. *)
Definition normalize (sentence : str) : str :=
  Jiwer.Strip (Jiwer.ToLowerCase (Jiwer.RemovePunctuation sentence)).

(** [ASR.compute_error_rate(reference, hypothesis)]. *)
Definition compute_error_rate (reference hypothesis : str)
    : result ErrorMetrics :=
  let reference := normalize reference in
  let hypothesis := normalize hypothesis in
  output ← Jiwer.process_words reference hypothesis;
  cer ← Jiwer.cer reference hypothesis;
  mret {| wer := Jiwer.wer output; mer := Jiwer.mer output;
          wil := Jiwer.wil output; wip := Jiwer.wip output; cer := cer |}.

(** *** [ASR.vosk_recognition] *)

(** The incremental recogniser of the vosk library, as the loop uses it:
    [AcceptWaveform] consumes a chunk and tells whether an utterance is
    complete, [Result] hands out the text of that utterance,
    [FinalResult] the text of what is left at the end of the stream.
    The two texts are the ["text"] entries of the JSON documents. *)
Record KaldiRecognizer (frame : Type) := {
  rec_state : Type;
  AcceptWaveform : rec_state -> list frame -> bool * rec_state;
  Result : rec_state -> str * rec_state;
  FinalResult : rec_state -> str
}.
Arguments rec_state {frame} _.
Arguments AcceptWaveform {frame} _ _ _.
Arguments Result {frame} _ _.
Arguments FinalResult {frame} _ _.

(** A value together with the equation that names it, for the loop
    below to remember what it read. *)
Definition inspect {A : Type} (a : A) : {b : A | a = b} :=
  exist _ a eq_refl.

Section Vosk.
Context {frame : Type} (K : KaldiRecognizer frame).

(** [wf.readframes(n)] on the frames not yet read: the chunk and the
    frames that remain. *)
Definition readframes (n : nat) (wf : list frame) : list frame * list frame :=
  (take n wf, drop n wf).

(** The [while True] loop, from the recogniser state, the unread frames
    and the text so far; it ends on the first empty chunk. *)
Equations? recognition_loop (rec : rec_state K) (wf : list frame) (text : str)
    : str * rec_state K by wf (length wf) lt :=
  recognition_loop rec wf text with inspect (readframes 4000 wf) => {
    | exist _ ([], _) _ := (text, rec);
    | exist _ (f :: data, wf') e with AcceptWaveform K rec (f :: data) => {
        | (true, rec1) with Result K rec1 => {
            | (jres_text, rec2) :=
                recognition_loop rec2 wf' (text ++ " "%char :: jres_text) };
        | (false, rec1) := recognition_loop rec1 wf' text } }.
Proof.
  all: destruct wf as [|f0 wf]; [discriminate|];
    rewrite length_drop; simpl; lia.
Qed.

(** The sentence that [vosk_recognition] returns for a file with the
    frames [wf] and a fresh recogniser in state [rec].  The elapsed
    seconds, returned next to it, are two clock readings and are left
    out. *)
Definition vosk_recognition (rec : rec_state K) (wf : list frame) : str :=
  let '(text, rec') := recognition_loop rec wf [] in
  text ++ " "%char :: FinalResult K rec'.

(** The stream seen from the recogniser: the texts it hands out, in
    order, while the frames [wf] go through it in chunks of 4000, and its
    state when the frames are used up.  A chunk that completes no
    utterance hands out nothing. *)
Inductive streams
    : rec_state K -> list frame -> list str -> rec_state K -> Prop :=
| streams_end rec : streams rec [] [] rec
| streams_accept rec wf rec1 jres_text rec2 results rec' :
    wf <> [] ->
    AcceptWaveform K rec (take 4000 wf) = (true, rec1) ->
    Result K rec1 = (jres_text, rec2) ->
    streams rec2 (drop 4000 wf) results rec' ->
    streams rec wf (jres_text :: results) rec'
| streams_reject rec wf rec1 results rec' :
    wf <> [] ->
    AcceptWaveform K rec (take 4000 wf) = (false, rec1) ->
    streams rec1 (drop 4000 wf) results rec' ->
    streams rec wf results rec'.

End Vosk.

(** The texts of a list, each one after a space. *)
Definition spaced (results : list str) : str :=
  concat (map (fun jres_text => " "%char :: jres_text) results).

(** A recogniser that completes an utterance without words on every
    chunk and ends with the text ["hi"]. *)
Definition wordless : KaldiRecognizer nat := {|
  rec_state := unit;
  AcceptWaveform := fun rec _ => (true, rec);
  Result := fun rec => ([], rec);
  FinalResult := fun _ => s "hi"
|}.

End ASR.

(** ** The score over any character set and any release of jiwer

    [compute_error_rate] once more, with what the repository does not
    fix taken as parameters: the character tables of Python, which cover
    all of Unicode, and the two functions of jiwer that compute the
    measures. *)

Module Text.
Import Py.

Section Text.
Context {char : Type}.

(** [ispunct c]: [unicodedata.category(c)] starts with [P];
    [isspace c]: [c.isspace()]; [lower t]: [t.lower()], which maps a
    whole sentence, since the lower case of a character can depend on
    its neighbours and can be more than one character. *)
Variables (ispunct isspace : char -> bool) (lower : list char -> list char).

(** [jiwer.process_words] and [jiwer.cer]. *)
Variables (process_words : list char -> list char -> result Jiwer.WordOutput)
          (cer : list char -> list char -> result Q).

(** [jiwer.RemovePunctuation()], [jiwer.ToLowerCase()] and
    [jiwer.Strip()], as in module [Jiwer]. *)
Definition RemovePunctuation (t : list char) : list char :=
  List.filter (fun c => negb (ispunct c)) t.

Definition ToLowerCase (t : list char) : list char := lower t.

Fixpoint lstrip (t : list char) : list char :=
  match t with
  | [] => []
  | c :: t' => if isspace c then lstrip t' else t
  end.

Definition rstrip (t : list char) : list char := rev (lstrip (rev t)).

Definition Strip (t : list char) : list char := rstrip (lstrip t).

(** The preprocessing applied to each sentence. *)
Definition normalize (sentence : list char) : list char :=
  Strip (ToLowerCase (RemovePunctuation sentence)).

(** [ASR.compute_error_rate(reference, hypothesis)]: there is no
    [try] in it, so what the library raises is raised, and what the
    library returns is returned. *)
Definition compute_error_rate (reference hypothesis : list char)
    : result ASR.ErrorMetrics :=
  let reference := normalize reference in
  let hypothesis := normalize hypothesis in
  output ← process_words reference hypothesis;
  cer ← cer reference hypothesis;
  mret {| ASR.wer := Jiwer.wer output; ASR.mer := Jiwer.mer output;
          ASR.wil := Jiwer.wil output; ASR.wip := Jiwer.wip output;
          ASR.cer := cer |}.

(** A sentence that does not start with whitespace. *)
Definition lclean (t : list char) : Prop :=
  match t with
  | [] => True
  | c :: _ => isspace c = false
  end.

(** A character that [lower] leaves as it is. *)
Definition lowered (c : char) : Prop := lower [c] = [c].

End Text.

End Text.

(** ** Recording: the queue between [callback] and the write loop *)

Module Capture.

Section Capture.
Context {block : Type}.

(** What can happen while the recording runs, one event per atomic step
    of a thread.
    - [Callback indata]: the audio thread runs [callback], which puts a
      copy of the block into the queue [q];
    - [Get]: the main thread returns from [q.get()] with the oldest block
      (it stays blocked while the queue is empty);
    - [Write]: the main thread passes that block to [file.write];
    - [Interrupt]: [KeyboardInterrupt] reaches the main thread, which
      leaves the loop and both [with] blocks: the stream stops and the
      file is closed. *)
Inductive event :=
| Callback (indata : block)
| Get
| Write
| Interrupt.

(** The recording: the queue [q], oldest block first; the block that
    [q.get()] has returned and [file.write] has not yet taken; the blocks
    in the sound file; whether the stream and the file are closed. *)
Record state := {
  q : list block;
  taken : option block;
  file : list block;
  closed : bool
}.

Definition init : state :=
  {| q := []; taken := None; file := []; closed := false |}.

Definition step (st : state) (e : event) : state :=
  if closed st then st
  else
    match e with
    | Callback indata =>
        {| q := q st ++ [indata]; taken := taken st;
           file := file st; closed := false |}
    | Get =>
        match taken st, q st with
        | None, b :: rest =>
            {| q := rest; taken := Some b; file := file st; closed := false |}
        | _, _ => st
        end
    | Write =>
        match taken st with
        | Some b =>
            {| q := q st; taken := None;
               file := file st ++ [b]; closed := false |}
        | None => st
        end
    | Interrupt =>
        {| q := q st; taken := taken st; file := file st; closed := true |}
    end.

(** The recording after a schedule of events. *)
Definition run_from (st : state) (trace : list event) : state :=
  fold_left step trace st.

Definition run (trace : list event) : state := run_from init trace.

(** The blocks that [callback] has put into the queue before the
    recording is interrupted, in the order of the calls. *)
Fixpoint enqueued (trace : list event) : list block :=
  match trace with
  | [] => []
  | Callback indata :: trace' => indata :: enqueued trace'
  | Interrupt :: _ => []
  | _ :: trace' => enqueued trace'
  end.

(** Whether the recording is interrupted during the schedule. *)
Definition cancelled (trace : list event) : bool :=
  existsb (fun e => match e with Interrupt => true | _ => false end) trace.

End Capture.
Arguments event : clear implicits.
Arguments state : clear implicits.

End Capture.

(** ** The output file *)

Module Session.
Import Py.

(** The directory: the contents of the regular files that exist, by
    path.  The content of a sound file is left abstract.  Directories
    and other entries that are no regular files, on which [os.remove]
    and soundfile act otherwise, are not part of it. *)
Section Files.
Context {content : Type}.

(** What the script prints while it chooses the file. *)
Definition removed_notice (filename : string) : string :=
  "Removed existing file: " +:+ filename.

(** Lines 204-209: without a [FILENAME] argument the recording goes to
    [recording.wav], and a file of that name is removed first.  Returns
    the directory, the file name and the lines printed. *)
Definition default_filename (fs : gmap string content)
    (filename : option string) : gmap string content * string * list string :=
  match filename with
  | None =>
      let filename := "recording.wav"%string in
      if bool_decide (is_Some (fs !! filename))
      then (delete filename fs, filename, [removed_notice filename])
      else (fs, filename, [])
  | Some filename => (fs, filename, [])
  end.

(** [sf.SoundFile(filename, mode='x', ...)]: exclusive creation, of a
    file that starts with the content [empty].  For the name of a
    regular file that exists soundfile raises the plain [OSError], with
    the message [File exists], before it opens anything. *)
Definition SoundFile_x (empty : content) (fs : gmap string content)
    (filename : string) : result (gmap string content) :=
  match fs !! filename with
  | Some _ => Raise OSError
  | None => Ok (<[filename := empty]> fs)
  end.

(** Lines 204-213: choose the file, then create it.  Returns the
    directory afterwards, the lines printed, and the name of the open
    file or the exception. *)
Definition open_output (empty : content) (fs : gmap string content)
    (filename : option string)
    : gmap string content * list string * result string :=
  let '(fs1, filename, printed) := default_filename fs filename in
  match SoundFile_x empty fs1 filename with
  | Ok fs2 => (fs2, printed, Ok filename)
  | Raise e => (fs1, printed, Raise e)
  end.

(** The start of the recording, for what it leaves in the directory:
    the directory and the file name of a start that succeeds. *)
Definition start (empty : content) (fs : gmap string content)
    (filename : option string) : result (gmap string content * string) :=
  let '(fs2, _, outcome) := open_output empty fs filename in
  filename ← outcome;
  mret (fs2, filename).

End Files.

End Session.

(** ** The evaluation: the [KeyboardInterrupt] handler *)

Module Harness.
Import Py.

(** [d[key]] on a dict. *)
Definition getitem {V : Type} (d : gmap string V) (key : option string)
    : result V :=
  match key with
  | Some k =>
      match d !! k with
      | Some v => Ok v
      | None => Raise KeyError
      end
  | None => Raise KeyError
  end.

(** The vosk model of each language and size. *)
Definition tiers (base large : string) : gmap string string :=
  <["base"%string := base]> (<["large"%string := large]> ∅).

Definition vosk_models_by_language : gmap string (gmap string string) :=
  list_to_map [
    ("english"%string,
     tiers "vosk-model-small-en-us-0.15" "vosk-model-en-us-0.42-gigaspeech");
    ("italian"%string, tiers "vosk-model-small-it-0.22" "vosk-model-it-0.22");
    ("spanish"%string, tiers "vosk-model-small-es-0.42" "vosk-model-es-0.42");
    ("catalan"%string,
     tiers "vosk-model-small-ca-0.4" "vosk-model-small-ca-0.4");
    ("french"%string, tiers "vosk-model-small-fr-0.22" "vosk-model-fr-0.22")
  ].

(** A call of a recogniser on the recording, with the arguments that
    select the model. *)
Inductive invocation :=
| Whisper (model_name : string) (language_id : option string)
| Vosk (model_name : string).

(** The handler's effects: the calls made so far, in order, and a value
    or an exception. *)
Definition Eval (A : Type) : Type :=
  list invocation -> list invocation * result A.

#[global] Instance Eval_ret : MRet Eval := fun A a log => (log, Ok a).
#[global] Instance Eval_bind : MBind Eval :=
  fun A B k m log =>
    match m log with
    | (log', Ok a) => k a log'
    | (log', Raise e) => (log', Raise e)
    end.

Definition lift {A : Type} (r : result A) : Eval A := fun log => (log, r).

Section Evaluation.
(** The recognisers are outside the script: [transcribe] gives the
    sentence and the elapsed seconds that each call returns.  Here every
    call returns; calls that raise are in [evaluate_or_raise] below. *)
Context (transcribe : invocation -> str * Q).

Definition recognise (i : invocation) : Eval (str * Q) :=
  fun log => (log ++ [i], Ok (transcribe i)).

(** Lines 236-256: the four recognitions with their scores against the
    reference ["Test"], then the rows of [model_data]. *)
Definition evaluate (target_language : option string)
    : Eval (list (string * ASR.ErrorMetrics)) :=
  whisper_s ← recognise (Whisper "base" target_language);
  ws ← lift (ASR.compute_error_rate (s "Test") whisper_s.1);
  whisper_l ← recognise (Whisper "large" target_language);
  wl ← lift (ASR.compute_error_rate (s "Test") whisper_l.1);
  by_size ← lift (getitem vosk_models_by_language target_language);
  vosk_small_model ← lift (getitem by_size (Some "base"%string));
  vosk_s ← recognise (Vosk vosk_small_model);
  vs ← lift (ASR.compute_error_rate (s "Test") vosk_s.1);
  by_size ← lift (getitem vosk_models_by_language target_language);
  vosk_large_model ← lift (getitem by_size (Some "large"%string));
  vosk_l ← recognise (Vosk vosk_large_model);
  vl ← lift (ASR.compute_error_rate (s "Test") vosk_l.1);
  mret [("vosk_small"%string, vs); ("vosk_large"%string, vl);
        ("whisper_small"%string, ws); ("whisper_large"%string, wl)].

End Evaluation.

Section Raising.
(** A recognition can also raise: the model cannot be loaded, or the
    recording cannot be read under the path that line 224 makes of the
    working directory and [FILENAME].  Here [transcribe] gives the
    outcome of each call: what it returns, or what it raises.  The call
    is made in both cases, and an exception ends the handler. *)
Context (transcribe : invocation -> result (str * Q)).

Definition recognise_or_raise (i : invocation) : Eval (str * Q) :=
  fun log => (log ++ [i], transcribe i).

(** Lines 236-256, as in [evaluate]. *)
Definition evaluate_or_raise (target_language : option string)
    : Eval (list (string * ASR.ErrorMetrics)) :=
  whisper_s ← recognise_or_raise (Whisper "base" target_language);
  ws ← lift (ASR.compute_error_rate (s "Test") whisper_s.1);
  whisper_l ← recognise_or_raise (Whisper "large" target_language);
  wl ← lift (ASR.compute_error_rate (s "Test") whisper_l.1);
  by_size ← lift (getitem vosk_models_by_language target_language);
  vosk_small_model ← lift (getitem by_size (Some "base"%string));
  vosk_s ← recognise_or_raise (Vosk vosk_small_model);
  vs ← lift (ASR.compute_error_rate (s "Test") vosk_s.1);
  by_size ← lift (getitem vosk_models_by_language target_language);
  vosk_large_model ← lift (getitem by_size (Some "large"%string));
  vosk_l ← recognise_or_raise (Vosk vosk_large_model);
  vl ← lift (ASR.compute_error_rate (s "Test") vosk_l.1);
  mret [("vosk_small"%string, vs); ("vosk_large"%string, vl);
        ("whisper_small"%string, ws); ("whisper_large"%string, wl)].

End Raising.

End Harness.

(** ** Command-line helper: [int_or_str] *)

Module Args.
Import Py.

(** The whitespace that [int] skips around a number in an ASCII [str]:
    tab, line feed, vertical tab, form feed, carriage return and the
    space (the separators 28-31, which [str.strip] removes, are not
    among them). *)
Definition isspace_int (c : ascii) : bool :=
  let n := nat_of_ascii c in
  ((9 <=? n) && (n <=? 13)) || (n =? 32).

Definition isdigit (c : ascii) : bool :=
  let n := nat_of_ascii c in
  (48 <=? n) && (n <=? 57).

Fixpoint skip_spaces (t : str) : str :=
  match t with
  | [] => []
  | c :: t' => if isspace_int c then skip_spaces t' else t
  end.

(** The digits at the front of [t], written as digit (["_"] digit | digit)*:
    an underscore is passed over only between two digits.  Returns the
    digits and what follows them. *)
Fixpoint scan_digits (t : str) : str * str :=
  match t with
  | [] => ([], [])
  | c :: t' =>
      if isdigit c then
        let next :=
          match t' with
          | u :: (d :: _) as t'' =>
              if Ascii.eqb u "_" && isdigit d then scan_digits t''
              else scan_digits t'
          | _ => scan_digits t'
          end in
        (c :: next.1, next.2)
      else ([], t)
  end.

(** The decimal number written by a string of digits. *)
Fixpoint uint_of_digits (ds : str) : Decimal.uint :=
  match ds with
  | [] => Decimal.Nil
  | c :: ds' =>
      let u := uint_of_digits ds' in
      match nat_of_ascii c - 48 with
      | 0 => Decimal.D0 u
      | 1 => Decimal.D1 u
      | 2 => Decimal.D2 u
      | 3 => Decimal.D3 u
      | 4 => Decimal.D4 u
      | 5 => Decimal.D5 u
      | 6 => Decimal.D6 u
      | 7 => Decimal.D7 u
      | 8 => Decimal.D8 u
      | _ => Decimal.D9 u
      end
  end.

(** [int(text)] for an ASCII [str]: surrounding whitespace, an optional
    sign, decimal digits with single underscores between them.  (For a
    [str] with other characters [int] also takes the decimal digits and
    the whitespace of other scripts; such a [str] is not covered.)
    [None] stands for [ValueError].  [max_str_digits] is
    [sys.get_int_max_str_digits()]: a number with more than 640 digits
    and more digits than the limit is refused, unless the limit is 0 (as
    it is where Python has no such limit). *)
Definition int (max_str_digits : nat) (text : str) : option Z :=
  let t := skip_spaces text in
  let '(negative, t) :=
    match t with
    | c :: t' =>
        if Ascii.eqb c "-" then (true, t')
        else if Ascii.eqb c "+" then (false, t')
        else (false, t)
    | [] => (false, t)
    end in
  let '(digits, rest) := scan_digits t in
  match digits, skip_spaces rest with
  | _ :: _, [] =>
      if (640 <? length digits) && (0 <? max_str_digits)
         && (max_str_digits <? length digits)
      then None
      else
        let u := uint_of_digits digits in
        Some (Z.of_int (if negative then Decimal.Neg u else Decimal.Pos u))
  | _, _ => None
  end.

(** What [int_or_str] returns: an [int] or the [str] it was given. *)
Inductive int_or_text :=
| Int (n : Z)
| Text (text : str).

(** Lines 133-138. *)
Definition int_or_str (max_str_digits : nat) (text : str) : int_or_text :=
  match int max_str_digits text with
  | Some n => Int n
  | None => Text text
  end.

(** [str(n)] for an [int]. *)
Fixpoint digits_of_uint (u : Decimal.uint) : str :=
  match u with
  | Decimal.Nil => []
  | Decimal.D0 u' => "0"%char :: digits_of_uint u'
  | Decimal.D1 u' => "1"%char :: digits_of_uint u'
  | Decimal.D2 u' => "2"%char :: digits_of_uint u'
  | Decimal.D3 u' => "3"%char :: digits_of_uint u'
  | Decimal.D4 u' => "4"%char :: digits_of_uint u'
  | Decimal.D5 u' => "5"%char :: digits_of_uint u'
  | Decimal.D6 u' => "6"%char :: digits_of_uint u'
  | Decimal.D7 u' => "7"%char :: digits_of_uint u'
  | Decimal.D8 u' => "8"%char :: digits_of_uint u'
  | Decimal.D9 u' => "9"%char :: digits_of_uint u'
  end.

Definition str_of_int (n : Z) : str :=
  match Z.to_int n with
  | Decimal.Pos u => digits_of_uint u
  | Decimal.Neg u => "-"%char :: digits_of_uint u
  end.

End Args.

(** ** [ASR.google_recognition] *)

Module Google.
Import Py.

(** The response of the recognition request, as the loop reads it: the
    results in order, each with its alternatives, each with a
    transcript. *)
Record alternative := { transcript : str }.
Record recognition_result := { alternatives : list alternative }.

(** How the function ends: it returns the sentence, or
    [result.alternatives[0]] raises [IndexError]; with the [Transcript]
    lines printed until then. *)
Inductive outcome :=
| Returned (printed : list str) (sentence : str)
| IndexError (printed : list str).

(** The [for] loop of lines 94-96, from the lines printed and the
    sentence so far. *)
Fixpoint transcripts (results : list recognition_result)
    (printed : list str) (sentence : str) : outcome :=
  match results with
  | [] => Returned printed sentence
  | result :: results' =>
      match alternatives result with
      | [] => IndexError printed
      | alt :: _ =>
          transcripts results'
            (printed ++ [s "Transcript: " ++ transcript alt])
            (sentence ++ transcript alt)
      end
  end.

(** The sentence that [google_recognition] returns for the response
    [results].  The last line printed and the second component hold the
    elapsed seconds and are left out. *)
Definition google_recognition (results : list recognition_result) : outcome :=
  transcripts results [] [].

End Google.

(** ** A recogniser that remembers its chunks *)

Module Feed.
Import Py ASR.

(** [K] with a record of the chunks that [AcceptWaveform] has received,
    the first one first. *)
Definition logged {frame : Type} (K : KaldiRecognizer frame)
    : KaldiRecognizer frame := {|
  rec_state := rec_state K * list (list frame);
  AcceptWaveform := fun st data =>
    let '(accepted, rec') := AcceptWaveform K st.1 data in
    (accepted, (rec', st.2 ++ [data]));
  Result := fun st =>
    let '(jres_text, rec') := Result K st.1 in (jres_text, (rec', st.2));
  FinalResult := fun st => FinalResult K st.1
|}.

End Feed.

(** ** [callback] and the buffer of the driver *)

Module Driver.

(** Arrays are objects: the store maps the identity of an array to its
    samples.  The driver owns one array, [buffer], fills it for every
    period and passes it to [callback] as [indata]. *)
Definition buffer : nat := 0.

(** The store; the next unused identity; the queue [q] of array
    identities, oldest first; the lines on [sys.stderr]; the blocks in
    the sound file (on disk, so by value). *)
Record state := {
  store : gmap nat (list Z);
  fresh : nat;
  q : list nat;
  stderr : list string;
  file : list (list Z)
}.

Definition init : state :=
  {| store := <[buffer := []]> ∅; fresh := 1; q := [];
     stderr := []; file := [] |}.

(** Lines 140-144.  [status] is [Some text] when a flag is set, with the
    text that [print] shows.  [indata.copy()] makes a new array with the
    samples that [indata] has now. *)
Definition callback (indata : nat) (status : option string) (st : state)
    : state :=
  let stderr' :=
    match status with
    | Some text => stderr st ++ [text]
    | None => stderr st
    end in
  let copy := fresh st in
  {| store := <[copy := default [] (store st !! indata)]> (store st);
     fresh := S (fresh st);
     q := q st ++ [copy];
     stderr := stderr';
     file := file st |}.

(** A step of the recording: the driver fills its buffer with the
    samples of a period and calls [callback]; or the write loop takes the
    oldest array of the queue and writes its samples (line 220). *)
Inductive event :=
| Period (samples : list Z) (status : option string)
| WriteNext.

Definition step (st : state) (e : event) : state :=
  match e with
  | Period samples status =>
      callback buffer status
        {| store := <[buffer := samples]> (store st); fresh := fresh st;
           q := q st; stderr := stderr st; file := file st |}
  | WriteNext =>
      match q st with
      | block :: rest =>
          {| store := store st; fresh := fresh st; q := rest;
             stderr := stderr st;
             file := file st ++ [default [] (store st !! block)] |}
      | [] => st
      end
  end.

Definition run (trace : list event) : state := fold_left step trace init.

(** The samples of the periods of a trace, and the statuses printed. *)
Fixpoint periods (trace : list event) : list (list Z) :=
  match trace with
  | [] => []
  | Period samples _ :: trace' => samples :: periods trace'
  | WriteNext :: trace' => periods trace'
  end.

Fixpoint statuses (trace : list event) : list string :=
  match trace with
  | [] => []
  | Period _ (Some text) :: trace' => text :: statuses trace'
  | _ :: trace' => statuses trace'
  end.

(** The samples behind the queue. *)
Definition queued (st : state) : list (list Z) :=
  map (fun block => default [] (store st !! block)) (q st).

(** The arrays of the queue are copies: none of them is the buffer of the
    driver, and their identities have been handed out. *)
Definition copies (st : state) : Prop :=
  buffer < fresh st /\
  Forall (fun block => buffer < block < fresh st) (q st).

End Driver.

(** ** The language tables and the report table *)

Module Report.
Import Py.

(** Lines 187-191. *)
Definition google_language_id : gmap string string :=
  list_to_map [
    ("english"%string, "en-GB"%string);
    ("italian"%string, "it-IT"%string);
    ("spanish"%string, "es-ES"%string);
    ("catalan"%string, "ca-ES"%string);
    ("french"%string, "fr-FR"%string)
  ].

(** [format(text, "<width")]: spaces are added on the right up to
    [width]; a longer text is left as it is. *)
Definition ljust (width : nat) (text : str) : str :=
  text ++ repeat " "%char (width - length text).

Section Table.
(** [str] of the floats in the table. *)
Context (str_of_float : Q -> str).

(** [str(model[i])] for the six entries of a row of [model_data]. *)
Definition cells (model : string * ASR.ErrorMetrics) : list str :=
  [list_ascii_of_string model.1;
   str_of_float (ASR.wer model.2); str_of_float (ASR.mer model.2);
   str_of_float (ASR.wil model.2); str_of_float (ASR.wip model.2);
   str_of_float (ASR.cer model.2)].

(** Line 259: for every column, the longest entry.  The rows of
    [model_data] have six entries each. *)
Definition column_widths (model_data : list (string * ASR.ErrorMetrics))
    : list nat :=
  map (fun i => max_list (map (fun model => length (nth i (cells model) []))
                              model_data))
      (seq 0 6).

(** Lines 262, 264 and 276. *)
Definition border (widths : list nat) : str :=
  "+"%char :: repeat "-"%char (list_sum widths + 13) ++ ["+"%char].

(** Line 263. *)
Definition header (widths : list nat) : str :=
  s "| " ++ ljust (nth 0 widths 0) (s "Model") ++ s " | "
  ++ ljust (nth 1 widths 0) (s "WER") ++ s " | "
  ++ ljust (nth 2 widths 0) (s "MER") ++ s " | "
  ++ ljust (nth 3 widths 0) (s "WIL") ++ s " | "
  ++ ljust (nth 4 widths 0) (s "WIP") ++ s " | "
  ++ ljust (nth 5 widths 0) (s "CER") ++ s " |".

(** Lines 271-272: the values of a row, each followed by [" |"] and the
    space of [end=' ']; [i] is the index of the first value. *)
Fixpoint values_line (widths : list nat) (i : nat) (values : list str) : str :=
  match values with
  | [] => []
  | value :: values' =>
      ljust (nth (i + 1) widths 0) value ++ s " |" ++ s " "
      ++ values_line widths (S i) values'
  end.

(** Lines 267-273: the line of a row. *)
Definition row_line (widths : list nat)
    (model_info : string * ASR.ErrorMetrics) : str :=
  match cells model_info with
  | model_name :: model_values =>
      s "| " ++ ljust (nth 0 widths 0) model_name ++ s " |" ++ s " "
      ++ values_line widths 0 model_values
  | [] => []
  end.

(** Lines 258-276: the lines of the table. *)
Definition table (model_data : list (string * ASR.ErrorMetrics)) : list str :=
  let widths := column_widths model_data in
  [border widths; header widths; border widths]
  ++ map (row_line widths) model_data
  ++ [border widths].

End Table.

End Report.

(** * Properties *)

(** ** Normalisation *)

Section Normalisation.
Import Py.

Lemma lstrip_lclean t : lclean (lstrip t).
Proof.
  induction t as [|c t IH]; simpl; [exact I|].
  destruct (isspace c) eqn:E; [exact IH | exact E].
Qed.

Lemma lstrip_fixed t : lclean t -> lstrip t = t.
Proof. destruct t as [|c t]; simpl; [done|]. by intros ->. Qed.

Lemma lstrip_suffix t : exists p, t = p ++ lstrip t.
Proof.
  induction t as [|c t [p IH]]; simpl; [by exists []|].
  destruct (isspace c); [|by exists []].
  exists (c :: p). simpl. by rewrite <- IH.
Qed.

Lemma rstrip_prefix t : exists p, t = rstrip t ++ p.
Proof.
  unfold rstrip. destruct (lstrip_suffix (rev t)) as [p Hp].
  exists (rev p). rewrite <- rev_app_distr, <- Hp. by rewrite rev_involutive.
Qed.

Lemma rstrip_lclean t : lclean t -> lclean (rstrip t).
Proof.
  intros Ht. destruct (rstrip_prefix t) as [p Hp].
  destruct (rstrip t) as [|c u]; [exact I|].
  rewrite Hp in Ht. exact Ht.
Qed.

Lemma strip_lclean t : lclean (strip t).
Proof. apply rstrip_lclean, lstrip_lclean. Qed.

Lemma strip_rclean t : lclean (rev (strip t)).
Proof. unfold strip, rstrip. rewrite rev_involutive. apply lstrip_lclean. Qed.

Lemma strip_fixed t : lclean t -> lclean (rev t) -> strip t = t.
Proof.
  intros Hl Hr. unfold strip, rstrip.
  rewrite (lstrip_fixed t Hl), (lstrip_fixed (rev t) Hr).
  apply rev_involutive.
Qed.

Lemma strip_idempotent t : strip (strip t) = strip t.
Proof. apply strip_fixed; [apply strip_lclean | apply strip_rclean]. Qed.

Lemma lower_idempotent c : lower (lower c) = lower c.
Proof.
  destruct c as [[] [] [] [] [] [] [] []]; vm_compute; reflexivity.
Qed.

Lemma lower_not_punct c : ispunct c = false -> ispunct (lower c) = false.
Proof.
  destruct c as [[] [] [] [] [] [] [] []]; vm_compute; by intros.
Qed.

Lemma filter_fixed {A} (f : A -> bool) l :
  Forall (fun x => f x = true) l -> List.filter f l = l.
Proof.
  induction 1 as [|x l Hx Hl IH]; simpl; [done|]. by rewrite Hx, IH.
Qed.

Lemma map_fixed {A} (f : A -> A) l :
  Forall (fun x => f x = x) l -> map f l = l.
Proof.
  induction 1 as [|x l Hx Hl IH]; simpl; [done|]. by rewrite Hx, IH.
Qed.

(** The ASCII tables have the three properties of Python's tables on
    which idempotence rests. *)
Lemma lower_lowered t : Forall (Text.lowered (map lower)) (map lower t).
Proof.
  apply List.Forall_forall. intros c Hc.
  apply in_map_iff in Hc as [d [<- _]].
  unfold Text.lowered. simpl. by rewrite lower_idempotent.
Qed.

Lemma lowered_fixed t :
  Forall (Text.lowered (map lower)) t -> map lower t = t.
Proof.
  intros Ht. apply map_fixed. eapply Forall_impl; [exact Ht|].
  intros c Hc. unfold Text.lowered in Hc. simpl in Hc. congruence.
Qed.

Lemma lower_keeps_not_punct t :
  Forall (fun c => ispunct c = false) t ->
  Forall (fun c => ispunct c = false) (map lower t).
Proof.
  intros Ht. apply List.Forall_forall. intros c Hc.
  apply in_map_iff in Hc as [d [<- Hd]].
  rewrite List.Forall_forall in Ht. by apply lower_not_punct, Ht.
Qed.

End Normalisation.

(** ** Normalisation over any character set *)

Section TextFacts.
Context {char : Type} (ispunct isspace : char -> bool)
        (lower : list char -> list char).
Implicit Types (t v w : list char).

Lemma Text_lstrip_lclean t : Text.lclean isspace (Text.lstrip isspace t).
Proof.
  induction t as [|c t IH]; simpl; [exact I|].
  destruct (isspace c) eqn:E; [exact IH | exact E].
Qed.

Lemma Text_lstrip_fixed t :
  Text.lclean isspace t -> Text.lstrip isspace t = t.
Proof. destruct t as [|c t]; simpl; [done|]. by intros ->. Qed.

Lemma Text_lstrip_suffix t : exists p, t = p ++ Text.lstrip isspace t.
Proof.
  induction t as [|c t [p IH]]; simpl; [by exists []|].
  destruct (isspace c); [|by exists []].
  exists (c :: p). simpl. by rewrite <- IH.
Qed.

Lemma Text_rstrip_prefix t : exists p, t = Text.rstrip isspace t ++ p.
Proof.
  unfold Text.rstrip. destruct (Text_lstrip_suffix (rev t)) as [p Hp].
  exists (rev p). rewrite <- rev_app_distr, <- Hp. by rewrite rev_involutive.
Qed.

Lemma Text_rstrip_lclean t :
  Text.lclean isspace t -> Text.lclean isspace (Text.rstrip isspace t).
Proof.
  intros Ht. destruct (Text_rstrip_prefix t) as [p Hp].
  destruct (Text.rstrip isspace t) as [|c u]; [exact I|].
  rewrite Hp in Ht. exact Ht.
Qed.

Lemma Text_Strip_fixed t :
  Text.lclean isspace t -> Text.lclean isspace (rev t) ->
  Text.Strip isspace t = t.
Proof.
  intros Hl Hr. unfold Text.Strip, Text.rstrip.
  rewrite (Text_lstrip_fixed t Hl), (Text_lstrip_fixed (rev t) Hr).
  apply rev_involutive.
Qed.

Lemma Text_Strip_idempotent t :
  Text.Strip isspace (Text.Strip isspace t) = Text.Strip isspace t.
Proof.
  apply Text_Strip_fixed.
  - apply Text_rstrip_lclean, Text_lstrip_lclean.
  - unfold Text.Strip, Text.rstrip. rewrite rev_involutive.
    apply Text_lstrip_lclean.
Qed.

(** Stripping keeps what holds of every character. *)
Lemma Text_Forall_lstrip (P : char -> Prop) t :
  Forall P t -> Forall P (Text.lstrip isspace t).
Proof.
  induction 1 as [|c t Hc Ht IH]; simpl; [constructor|].
  destruct (isspace c); [exact IH | by constructor].
Qed.

Lemma Text_Forall_Strip (P : char -> Prop) t :
  Forall P t -> Forall P (Text.Strip isspace t).
Proof.
  intros Ht. unfold Text.Strip, Text.rstrip.
  apply Forall_rev, Text_Forall_lstrip, Forall_rev, Text_Forall_lstrip, Ht.
Qed.

Lemma Text_RemovePunctuation_clean t :
  Forall (fun c => ispunct c = false) (Text.RemovePunctuation ispunct t).
Proof.
  apply List.Forall_forall. intros c Hc.
  apply filter_In in Hc as [_ Hc]. by apply negb_true_iff in Hc.
Qed.

Lemma Text_RemovePunctuation_fixed t :
  Forall (fun c => ispunct c = false) t ->
  Text.RemovePunctuation ispunct t = t.
Proof.
  intros Ht. apply filter_fixed. eapply Forall_impl; [exact Ht|].
  intros c Hc. simpl. by rewrite Hc.
Qed.

Lemma Text_RemovePunctuation_app t v :
  Text.RemovePunctuation ispunct (t ++ v)
  = Text.RemovePunctuation ispunct t ++ Text.RemovePunctuation ispunct v.
Proof. apply List.filter_app. Qed.

Lemma Text_lstrip_spaces w t :
  Forall (fun c => isspace c = true) w ->
  Text.lstrip isspace (w ++ t) = Text.lstrip isspace t.
Proof. induction 1 as [|c w Hc _ IH]; simpl; [done|]. by rewrite Hc. Qed.

Lemma Text_lstrip_app t v :
  Text.lstrip isspace (t ++ v) =
  match Text.lstrip isspace t with
  | [] => Text.lstrip isspace v
  | _ :: _ => Text.lstrip isspace t ++ v
  end.
Proof.
  induction t as [|c t IH]; simpl; [done|].
  by destruct (isspace c).
Qed.

Lemma Text_rstrip_spaces t w :
  Forall (fun c => isspace c = true) w ->
  Text.rstrip isspace (t ++ w) = Text.rstrip isspace t.
Proof.
  intros Hw. unfold Text.rstrip.
  rewrite rev_app_distr, Text_lstrip_spaces; [done|].
  by apply Forall_rev.
Qed.

Lemma Text_Strip_spaces w1 t w2 :
  Forall (fun c => isspace c = true) w1 ->
  Forall (fun c => isspace c = true) w2 ->
  Text.Strip isspace (w1 ++ t ++ w2) = Text.Strip isspace t.
Proof.
  intros H1 H2. unfold Text.Strip. rewrite Text_lstrip_spaces by done.
  rewrite Text_lstrip_app.
  destruct (Text.lstrip isspace t) as [|c u] eqn:E.
  - rewrite <- (app_nil_r w2), Text_lstrip_spaces by done. reflexivity.
  - by rewrite Text_rstrip_spaces.
Qed.

(** A punctuation character anywhere in a sentence is not in its
    normalised form. *)
Lemma Text_normalize_punctuation t c v :
  ispunct c = true ->
  Text.normalize ispunct isspace lower (t ++ c :: v)
  = Text.normalize ispunct isspace lower (t ++ v).
Proof.
  intros Hc. unfold Text.normalize. f_equal. f_equal.
  rewrite !Text_RemovePunctuation_app. f_equal.
  unfold Text.RemovePunctuation. simpl. by rewrite Hc.
Qed.

(** The score of two sentences is the score of their normalised forms,
    whatever the library computes. *)
Lemma Text_compute_error_rate_normalize
    (process_words : list char -> list char -> Py.result Jiwer.WordOutput)
    (cer : list char -> list char -> Py.result Q)
    reference hypothesis reference' hypothesis' :
  Text.normalize ispunct isspace lower reference
    = Text.normalize ispunct isspace lower reference' ->
  Text.normalize ispunct isspace lower hypothesis
    = Text.normalize ispunct isspace lower hypothesis' ->
  Text.compute_error_rate ispunct isspace lower process_words cer
    reference hypothesis
  = Text.compute_error_rate ispunct isspace lower process_words cer
      reference' hypothesis'.
Proof. intros Hr Hh. unfold Text.compute_error_rate. by rewrite Hr, Hh. Qed.

End TextFacts.

(** With the ASCII tables and the measures of module [Jiwer], the code
    over any character set is the code of module [ASR]. *)
Lemma lstrip_ascii t : Text.lstrip Py.isspace t = Py.lstrip t.
Proof. induction t as [|c t IH]; simpl; [done|]. by rewrite IH. Qed.

Lemma normalize_ascii t :
  Text.normalize Py.ispunct Py.isspace (map Py.lower) t = ASR.normalize t.
Proof.
  unfold Text.normalize, Text.Strip, Text.rstrip, Text.ToLowerCase.
  by rewrite !lstrip_ascii.
Qed.

Lemma compute_error_rate_ascii reference hypothesis :
  Text.compute_error_rate Py.ispunct Py.isspace (map Py.lower)
    Jiwer.process_words Jiwer.cer reference hypothesis
  = ASR.compute_error_rate reference hypothesis.
Proof.
  unfold Text.compute_error_rate, ASR.compute_error_rate.
  by rewrite !normalize_ascii.
Qed.

(** C4: the normalisation of [compute_error_rate] (remove punctuation,
    lower the case, strip, in that order) is idempotent: normalising a
    normalised sentence returns it unchanged.  This holds over every
    character set whose tables have three properties of Python's, which
    cover Unicode: every character of a lower-cased sentence is one that
    [lower] leaves as it is; [lower] leaves a sentence of such
    characters as it is (the lower case depends on the neighbours only
    for capital sigma); and the lower case of a sentence without
    punctuation has no punctuation (it is made of letters and marks). *)
Theorem normalize_idempotent {char : Type} (ispunct isspace : char -> bool)
    (lower : list char -> list char) :
  (forall t, Forall (Text.lowered lower) (lower t)) ->
  (forall t, Forall (Text.lowered lower) t -> lower t = t) ->
  (forall t, Forall (fun c => ispunct c = false) t ->
             Forall (fun c => ispunct c = false) (lower t)) ->
  forall t,
    Text.normalize ispunct isspace lower
      (Text.normalize ispunct isspace lower t)
    = Text.normalize ispunct isspace lower t.
Proof.
  intros Hlowered Hfixed Hpunct t.
  unfold Text.normalize at 2 3. unfold Text.ToLowerCase.
  set (u := lower (Text.RemovePunctuation ispunct t)).
  assert (Forall (Text.lowered lower) (Text.Strip isspace u)) as Hl
    by apply Text_Forall_Strip, Hlowered.
  assert (Forall (fun c => ispunct c = false) (Text.Strip isspace u)) as Hp
    by apply Text_Forall_Strip, Hpunct, Text_RemovePunctuation_clean.
  unfold Text.normalize, Text.ToLowerCase.
  rewrite (Text_RemovePunctuation_fixed _ _ Hp), (Hfixed _ Hl).
  apply Text_Strip_idempotent.
Qed.

Lemma normalize_idempotent_witness :
  ASR.normalize (ASR.normalize (Py.s "  Hello, World!  "))
  = ASR.normalize (Py.s "  Hello, World!  ") /\
  ASR.normalize (Py.s "  Hello, World!  ") = Py.s "hello world".
Proof.
  split; [|vm_compute; reflexivity].
  rewrite <- !normalize_ascii.
  apply (normalize_idempotent Py.ispunct Py.isspace (map Py.lower)).
  - apply lower_lowered.
  - apply lowered_fixed.
  - apply lower_keeps_not_punct.
Defined.

(** ** Alignments *)

Section AlignmentFacts.
Import Jiwer.
Context {A : Type} `{EqDecision A}.

Lemma cheaper_le_l a b : total_cost (cheaper a b) <= total_cost a.
Proof.
  unfold cheaper. destruct (total_cost a <=? total_cost b) eqn:E; [lia|].
  apply Nat.leb_gt in E. lia.
Qed.

Lemma cheaper_le_r a b : total_cost (cheaper a b) <= total_cost b.
Proof.
  unfold cheaper. destruct (total_cost a <=? total_cost b) eqn:E; [|lia].
  by apply Nat.leb_le in E.
Qed.

Lemma cheaper_cases a b : cheaper a b = a \/ cheaper a b = b.
Proof. unfold cheaper. destruct (_ <=? _); auto. Qed.

Lemma total_cost_cons o ops : total_cost (o :: ops) = cost o + total_cost ops.
Proof. reflexivity. Qed.

Lemma total_cost_inserts n : total_cost (repeat Insert n) = n.
Proof. induction n as [|n IH]; [done|]. simpl repeat. rewrite total_cost_cons, IH. done. Qed.

(** The unfolding of the recursion, one equation per shape. *)
Lemma editops_rec_nil_l (h : list A) :
  editops_rec [] h = repeat Insert (length h).
Proof. reflexivity. Qed.

Lemma editops_rec_nil_r (x : A) r :
  editops_rec (x :: r) [] = Delete :: editops_rec r [].
Proof. reflexivity. Qed.

Lemma editops_rec_cons (x y : A) r h :
  editops_rec (x :: r) (y :: h) =
  cheaper (diagonal x y :: editops_rec r h)
    (cheaper (Delete :: editops_rec r (y :: h))
             (Insert :: editops_rec (x :: r) h)).
Proof. reflexivity. Qed.

Lemma aligns_inserts (h : list A) : aligns (repeat Insert (length h)) [] h.
Proof. induction h; simpl; constructor; assumption. Qed.

Lemma aligns_diagonal (x y : A) ops r h :
  aligns ops r h -> aligns (diagonal x y :: ops) (x :: r) (y :: h).
Proof.
  intros Hops. unfold diagonal. case_bool_decide as E.
  - subst y. by constructor.
  - by constructor.
Qed.

(** The recursion yields an alignment of its two arguments. *)
Lemma editops_rec_aligns (r h : list A) : aligns (editops_rec r h) r h.
Proof.
  revert h. induction r as [|x r IHr]; intros h.
  - apply aligns_inserts.
  - induction h as [|y h IHh].
    + rewrite editops_rec_nil_r. constructor. apply IHr.
    + rewrite editops_rec_cons.
      destruct (cheaper_cases (diagonal x y :: editops_rec r h)
                  (cheaper (Delete :: editops_rec r (y :: h))
                     (Insert :: editops_rec (x :: r) h))) as [-> | ->].
      * apply aligns_diagonal, IHr.
      * destruct (cheaper_cases (Delete :: editops_rec r (y :: h))
                    (Insert :: editops_rec (x :: r) h)) as [-> | ->].
        -- constructor. apply IHr.
        -- constructor. apply IHh.
Qed.

(** No alignment is cheaper. *)
Lemma editops_rec_minimal ops (r h : list A) :
  aligns ops r h -> total_cost (editops_rec r h) <= total_cost ops.
Proof.
  induction 1 as [|x ops r h Hops IH|x y ops r h Hxy Hops IH
                  |x ops r h Hops IH|y ops r h Hops IH].
  - done.
  - rewrite editops_rec_cons. etrans; [apply cheaper_le_l|].
    unfold diagonal. rewrite bool_decide_eq_true_2 by done.
    rewrite !total_cost_cons. simpl cost. lia.
  - rewrite editops_rec_cons. etrans; [apply cheaper_le_l|].
    unfold diagonal. rewrite bool_decide_eq_false_2 by done.
    rewrite !total_cost_cons. simpl cost. lia.
  - destruct h as [|y h].
    + rewrite editops_rec_nil_r, !total_cost_cons. simpl cost. lia.
    + rewrite editops_rec_cons.
      etrans; [apply cheaper_le_r|]. etrans; [apply cheaper_le_l|].
      rewrite !total_cost_cons. simpl cost. lia.
  - destruct r as [|x r].
    + rewrite editops_rec_nil_l in *. rewrite total_cost_inserts in *.
      rewrite total_cost_cons. simpl cost. simpl length. lia.
    + rewrite editops_rec_cons.
      etrans; [apply cheaper_le_r|]. etrans; [apply cheaper_le_r|].
      rewrite !total_cost_cons. simpl cost. lia.
Qed.

(** The table holds, row by row, the alignments of the recursion. *)
Lemma tails_head (h : list A) : exists ts, tails h = h :: ts.
Proof. destruct h; simpl; eauto. Qed.

Lemma next_row_spec (x : A) r h :
  next_row x h (map (editops_rec r) (tails h)) =
  map (editops_rec (x :: r)) (tails h).
Proof.
  induction h as [|y h IH]; [reflexivity|].
  simpl tails. simpl map. simpl next_row. rewrite IH.
  destruct (tails_head h) as [ts ->]. simpl map.
  by rewrite <- editops_rec_cons.
Qed.

Lemma rows_spec (r h : list A) : rows r h = map (editops_rec r) (tails h).
Proof.
  induction r as [|x r IH]; simpl; [reflexivity|].
  rewrite IH. apply next_row_spec.
Qed.

Lemma editops_unfold (r h : list A) : editops r h = editops_rec r h.
Proof.
  unfold editops. rewrite rows_spec.
  by destruct (tails_head h) as [ts ->].
Qed.

Lemma editops_aligns (r h : list A) : aligns (editops r h) r h.
Proof. rewrite editops_unfold. apply editops_rec_aligns. Qed.

Lemma editops_minimal ops (r h : list A) :
  aligns ops r h -> total_cost (editops r h) <= total_cost ops.
Proof. rewrite editops_unfold. apply editops_rec_minimal. Qed.

(** Counting the steps of an alignment. *)
Lemma count_op_cons o o' ops :
  count_op o (o' :: ops) =
  (if bool_decide (o' = o) then 1 else 0) + count_op o ops.
Proof. unfold count_op. simpl. by destruct (bool_decide (o' = o)). Qed.

Lemma total_cost_counts ops :
  total_cost ops =
  count_op Replace ops + count_op Delete ops + count_op Insert ops.
Proof.
  induction ops as [|o ops IH]; [done|].
  rewrite total_cost_cons, !count_op_cons, IH.
  destruct o; repeat case_bool_decide; try done; simpl cost; lia.
Qed.

Lemma aligns_reference_length ops (r h : list A) :
  aligns ops r h ->
  length r = count_op Hit ops + count_op Replace ops + count_op Delete ops.
Proof.
  induction 1; rewrite ?count_op_cons; repeat case_bool_decide;
    try done; simpl length; lia.
Qed.

Lemma aligns_hypothesis_length ops (r h : list A) :
  aligns ops r h ->
  length h = count_op Hit ops + count_op Replace ops + count_op Insert ops.
Proof.
  induction 1; rewrite ?count_op_cons; repeat case_bool_decide;
    try done; simpl length; lia.
Qed.

(** Equal sequences align with hits only; against nothing, every
    reference token is deleted. *)
Lemma aligns_hits (w : list A) : aligns (repeat Hit (length w)) w w.
Proof. induction w; simpl; constructor; assumption. Qed.

Lemma total_cost_hits n : total_cost (repeat Hit n) = 0.
Proof. induction n as [|n IH]; [done|]. simpl repeat. by rewrite total_cost_cons, IH. Qed.

Lemma editops_same_cost (w : list A) : total_cost (editops w w) = 0.
Proof.
  pose proof (editops_minimal _ _ _ (aligns_hits w)) as Hle.
  rewrite total_cost_hits in Hle. lia.
Qed.

Lemma editops_empty_hypothesis (r : list A) :
  editops r [] = repeat Delete (length r).
Proof.
  rewrite editops_unfold. induction r as [|x r IH]; [done|].
  rewrite editops_rec_nil_r, IH. done.
Qed.

Lemma count_op_repeat o o' n :
  count_op o (repeat o' n) = if bool_decide (o' = o) then n else 0.
Proof.
  induction n as [|n IH]; simpl repeat.
  - by destruct (bool_decide _).
  - rewrite count_op_cons, IH. by destruct (bool_decide _).
Qed.

End AlignmentFacts.

(** ** Measures *)

Section MeasureFacts.
Import Py Jiwer.

Lemma truediv_ok a b :
  0 < b -> truediv a b = Ok (Z.of_nat a # Pos.of_nat b).
Proof. destruct b; [lia | reflexivity]. Qed.

Lemma ratio_self n : 0 < n -> Z.of_nat n # Pos.of_nat n == 1.
Proof.
  intros Hn. unfold Qeq. simpl.
  assert (Z.pos (Pos.of_nat n) = Z.of_nat n) as ->; [|lia].
  rewrite <- (Nat2Pos.id n) at 2 by lia. symmetry. apply positive_nat_Z.
Qed.

Lemma ratio_zero p : Z.of_nat 0 # p == 0.
Proof. reflexivity. Qed.

(** With a reference that has tokens, the measures are defined; their
    values in terms of the alignment. *)
Lemma measures_defined {A : Type} `{EqDecision A} (r h : list A) :
  r <> [] ->
  exists out,
    measures r h = Ok out /\
    substitutions out = count_op Replace (editops r h) /\
    deletions out = count_op Delete (editops r h) /\
    insertions out = count_op Insert (editops r h) /\
    hits out = count_op Hit (editops r h) /\
    wer out = (Z.of_nat (total_cost (editops r h)) # Pos.of_nat (length r)) /\
    mer out = (Z.of_nat (total_cost (editops r h))
               # Pos.of_nat (total_cost (editops r h) + hits out)) /\
    wip out = (if 1 <=? length h
               then (Z.of_nat (hits out) # Pos.of_nat (length r))
                    * (Z.of_nat (hits out) # Pos.of_nat (length h))
               else 0)%Q /\
    wil out = (1 - wip out)%Q.
Proof.
  intros Hr.
  assert (0 < length r) as Hlen by (destruct r; [done | simpl; lia]).
  pose proof (aligns_reference_length _ _ _ (editops_aligns r h)) as Href.
  pose proof (total_cost_counts (editops r h)) as Hcost.
  unfold measures.
  set (ops := editops r h) in *.
  set (nS := count_op Replace ops) in *.
  set (nD := count_op Delete ops) in *.
  set (nI := count_op Insert ops) in *.
  assert (length r - (nS + nD) = count_op Hit ops) as -> by lia.
  set (nC := count_op Hit ops) in *.
  replace (nS + nD + nI) with (total_cost ops) by lia.
  unfold mbind, result_bind, mret, result_ret.
  rewrite (truediv_ok _ (length r)) by lia. cbn [bind].
  rewrite (truediv_ok _ (total_cost ops + nC)) by lia. cbn [bind].
  destruct (1 <=? length h) eqn:Eh.
  - apply Nat.leb_le in Eh.
    rewrite (truediv_ok _ (length r)) by lia. cbn [bind].
    rewrite (truediv_ok _ (length h)) by lia. cbn [bind].
    eexists. split; [reflexivity|]. cbn. repeat split.
  - cbn [bind]. eexists. split; [reflexivity|]. cbn. repeat split.
Qed.

Lemma measures_same {A : Type} `{EqDecision A} (w : list A) :
  w <> [] ->
  exists out,
    measures w w = Ok out /\
    wer out == 0 /\ mer out == 0 /\ wil out == 0 /\ wip out == 1.
Proof.
  intros Hw.
  assert (0 < length w) as Hlen by (destruct w; [done | simpl; lia]).
  destruct (measures_defined w w Hw)
    as (out & Hout & _ & _ & _ & HC & Hwer & Hmer & Hwip & Hwil).
  pose proof (aligns_reference_length _ _ _ (editops_aligns w w)) as Href.
  pose proof (total_cost_counts (editops w w)) as Hcost.
  rewrite editops_same_cost in *.
  assert (hits out = length w) as Hhits by lia.
  assert (wip out == 1) as Hone.
  { rewrite Hwip, (proj2 (Nat.leb_le 1 (length w))), Hhits by lia.
    rewrite ratio_self by lia. reflexivity. }
  exists out. split; [exact Hout|].
  rewrite Hwer, Hmer, Hwil, Hone. repeat split; reflexivity.
Qed.

Lemma measures_empty_hypothesis {A : Type} `{EqDecision A} (r : list A) :
  r <> [] ->
  exists out,
    measures r [] = Ok out /\
    wer out == 1 /\ mer out == 1 /\ wil out == 1 /\ wip out == 0 /\
    deletions out = length r /\ substitutions out = 0 /\
    insertions out = 0 /\ hits out = 0.
Proof.
  intros Hr.
  assert (0 < length r) as Hlen by (destruct r; [done | simpl; lia]).
  destruct (measures_defined r [] Hr)
    as (out & Hout & HS & HD & HI & HC & Hwer & Hmer & Hwip & Hwil).
  assert (count_op Replace (editops r []) = 0) as HS'
    by (by rewrite editops_empty_hypothesis, count_op_repeat).
  assert (count_op Delete (editops r []) = length r) as HD'
    by (by rewrite editops_empty_hypothesis, count_op_repeat).
  assert (count_op Insert (editops r []) = 0) as HI'
    by (by rewrite editops_empty_hypothesis, count_op_repeat).
  assert (count_op Hit (editops r []) = 0) as HC'
    by (by rewrite editops_empty_hypothesis, count_op_repeat).
  assert (total_cost (editops r []) = length r) as Hcost
    by (rewrite total_cost_counts; lia).
  assert (wip out == 0) as Hzero by (rewrite Hwip; reflexivity).
  exists out. split; [exact Hout|].
  split; [rewrite Hwer, Hcost; by apply ratio_self|].
  split.
  { rewrite Hmer, Hcost, HC, HC', Nat.add_0_r. by apply ratio_self. }
  split; [rewrite Hwil, Hzero; reflexivity|].
  split; [exact Hzero|].
  repeat split; congruence.
Qed.

(** The words of a sentence that starts with a character that is not
    whitespace. *)
Lemma lstrip_snoc w c :
  isspace c = false -> exists p, lstrip (w ++ [c]) = p ++ [c].
Proof.
  intros Hc. induction w as [|a w [p IH]]; simpl.
  - rewrite Hc. by exists [].
  - destruct (isspace a); [by exists p|]. by exists (a :: w).
Qed.

Lemma strip_cons c v :
  isspace c = false -> exists v', strip (c :: v) = c :: v'.
Proof.
  intros Hc. unfold strip, rstrip. simpl lstrip. rewrite Hc. simpl rev.
  destruct (lstrip_snoc (rev v) c Hc) as [p ->].
  exists (rev p). by rewrite rev_app_distr.
Qed.

Lemma not_space_char c : isspace c = false -> Ascii.eqb c " " = false.
Proof.
  intros Hc. destruct (Ascii.eqb_spec c " ") as [-> |]; [|done].
  vm_compute in Hc. discriminate.
Qed.

Lemma wer_default_nonempty t : t <> [] -> lclean t -> wer_default t <> [].
Proof.
  destruct t as [|c t]; [done|]. intros _ Hc. simpl in Hc.
  unfold wer_default, RemoveMultipleSpaces, Strip. simpl. rewrite Hc.
  destruct (strip_cons c (remove_multiple_spaces false t) Hc) as [v ->].
  unfold ReduceToListOfListOfWords. simpl.
  rewrite (not_space_char c Hc).
  by destruct (split " " v).
Qed.

Lemma normalize_lclean t : lclean (ASR.normalize t).
Proof. apply strip_lclean. Qed.

Lemma cer_default_normalize t :
  cer_default (ASR.normalize t) = ASR.normalize t.
Proof. apply strip_idempotent. Qed.

Lemma normalize_empty : ASR.normalize (s "") = [].
Proof. reflexivity. Qed.

End MeasureFacts.

(** ** The score of [compute_error_rate] *)

Section Scores.
Import Py.

(** The score in terms of the two measure computations. *)
Lemma compute_error_rate_ok reference hypothesis out chars :
  Jiwer.measures (Jiwer.wer_default (ASR.normalize reference))
                 (Jiwer.wer_default (ASR.normalize hypothesis)) = Ok out ->
  Jiwer.measures (Jiwer.cer_default (ASR.normalize reference))
                 (Jiwer.cer_default (ASR.normalize hypothesis)) = Ok chars ->
  ASR.compute_error_rate reference hypothesis =
  Ok {| ASR.wer := Jiwer.wer out; ASR.mer := Jiwer.mer out;
        ASR.wil := Jiwer.wil out; ASR.wip := Jiwer.wip out;
        ASR.cer := Jiwer.wer chars |}.
Proof.
  intros Hout Hchars.
  unfold ASR.compute_error_rate, Jiwer.process_words, Jiwer.cer.
  unfold mbind, result_bind, mret, result_ret.
  rewrite Hout, Hchars. reflexivity.
Qed.

Lemma normalize_words_nonempty reference :
  ASR.normalize reference <> [] ->
  Jiwer.wer_default (ASR.normalize reference) <> [].
Proof. intros Hne. apply wer_default_nonempty, normalize_lclean. exact Hne. Qed.

Lemma normalize_chars_nonempty reference :
  ASR.normalize reference <> [] ->
  Jiwer.cer_default (ASR.normalize reference) <> [].
Proof. by rewrite cer_default_normalize. Qed.

(** C5: for every non-empty normalised sentence, the score of the
    sentence against itself is wer = 0, mer = 0, wil = 0, wip = 1 and
    cer = 0. *)
Theorem identical_sentences_score (t : str) :
  t <> [] -> ASR.normalize t = t ->
  exists m,
    ASR.compute_error_rate t t = Ok m /\
    ASR.wer m == 0 /\ ASR.mer m == 0 /\ ASR.wil m == 0 /\
    ASR.wip m == 1 /\ ASR.cer m == 0.
Proof.
  intros Hne Hnorm. rewrite <- Hnorm in Hne.
  destruct (measures_same _ (normalize_words_nonempty t Hne))
    as (out & Hout & Hwer & Hmer & Hwil & Hwip).
  destruct (measures_same _ (normalize_chars_nonempty t Hne))
    as (chars & Hchars & Hcer & _).
  eexists. split; [by apply compute_error_rate_ok|].
  cbn. repeat split; assumption.
Qed.

Lemma identical_sentences_score_witness :
  exists m,
    ASR.compute_error_rate (s "the quick brown fox")
                           (s "the quick brown fox") = Ok m /\
    ASR.wer m == 0 /\ ASR.mer m == 0 /\ ASR.wil m == 0 /\
    ASR.wip m == 1 /\ ASR.cer m == 0.
Proof.
  apply (identical_sentences_score (s "the quick brown fox")).
  - vm_compute. discriminate.
  - vm_compute. reflexivity.
Defined.

(** C6: for every reference that is non-empty after normalisation, the
    score against the empty hypothesis is maximal: every reference word
    is counted as a deletion, none as a hit, a substitution or an
    insertion, and wer = 1 (with mer = 1, wil = 1, wip = 0, cer = 1). *)
Theorem empty_hypothesis_score (reference : str) :
  ASR.normalize reference <> [] ->
  exists out m,
    Jiwer.process_words (ASR.normalize reference) (ASR.normalize (s ""))
      = Ok out /\
    Jiwer.deletions out
      = length (Jiwer.wer_default (ASR.normalize reference)) /\
    Jiwer.hits out = 0 /\ Jiwer.substitutions out = 0 /\
    Jiwer.insertions out = 0 /\
    ASR.compute_error_rate reference (s "") = Ok m /\
    ASR.wer m == 1 /\ ASR.mer m == 1 /\ ASR.wil m == 1 /\
    ASR.wip m == 0 /\ ASR.cer m == 1.
Proof.
  intros Hne.
  destruct (measures_empty_hypothesis _ (normalize_words_nonempty _ Hne))
    as (out & Hout & Hwer & Hmer & Hwil & Hwip & HD & HS & HI & HC).
  destruct (measures_empty_hypothesis _ (normalize_chars_nonempty _ Hne))
    as (chars & Hchars & Hcer & _).
  exists out. eexists.
  split; [exact Hout|]. do 4 (split; [assumption|]).
  split; [by apply compute_error_rate_ok|].
  cbn. repeat split; assumption.
Qed.

Lemma empty_hypothesis_score_witness :
  exists out m,
    Jiwer.process_words (ASR.normalize (s "The quick, brown fox!"))
                        (ASR.normalize (s "")) = Ok out /\
    Jiwer.deletions out
      = length (Jiwer.wer_default
                  (ASR.normalize (s "The quick, brown fox!"))) /\
    Jiwer.hits out = 0 /\ Jiwer.substitutions out = 0 /\
    Jiwer.insertions out = 0 /\
    ASR.compute_error_rate (s "The quick, brown fox!") (s "") = Ok m /\
    ASR.wer m == 1 /\ ASR.mer m == 1 /\ ASR.wil m == 1 /\
    ASR.wip m == 0 /\ ASR.cer m == 1.
Proof.
  apply (empty_hypothesis_score (s "The quick, brown fox!")).
  vm_compute. discriminate.
Defined.

(** C7: the word error rate is (S+D+I)/N_ref for the substitutions,
    deletions and insertions of a minimum-edit-distance alignment of the
    words of the normalised reference (N_ref of them) with the words of
    the normalised hypothesis; for the reference "the quick brown fox"
    and the hypothesis "the quick fox" it is 1/4. *)
Theorem wer_is_edit_distance_rate (reference hypothesis : str) :
  ASR.normalize reference <> [] ->
  let r := Jiwer.wer_default (ASR.normalize reference) in
  let h := Jiwer.wer_default (ASR.normalize hypothesis) in
  let ops := Jiwer.editops r h in
  (exists m,
     ASR.compute_error_rate reference hypothesis = Ok m /\
     Jiwer.aligns ops r h /\
     (forall ops', Jiwer.aligns ops' r h ->
                   Jiwer.total_cost ops <= Jiwer.total_cost ops') /\
     ASR.wer m ==
       Z.of_nat (Jiwer.count_op Jiwer.Replace ops
                 + Jiwer.count_op Jiwer.Delete ops
                 + Jiwer.count_op Jiwer.Insert ops)
       # Pos.of_nat (length r)) /\
  (exists m,
     ASR.compute_error_rate (s "the quick brown fox") (s "the quick fox")
       = Ok m /\
     ASR.wer m == 1 # 4).
Proof.
  intros Hne r h ops. split.
  - destruct (measures_defined r h (normalize_words_nonempty _ Hne))
      as (out & Hout & _ & _ & _ & _ & Hwer & _).
    destruct (measures_defined
                (Jiwer.cer_default (ASR.normalize reference))
                (Jiwer.cer_default (ASR.normalize hypothesis))
                (normalize_chars_nonempty _ Hne)) as (chars & Hchars & _).
    eexists. split; [by apply compute_error_rate_ok|].
    split; [apply editops_aligns|].
    split; [intros ops'; apply editops_minimal|].
    cbn. rewrite Hwer. fold ops. rewrite (total_cost_counts ops).
    reflexivity.
  - eexists. split; [vm_compute; reflexivity|]. reflexivity.
Qed.

Lemma wer_is_edit_distance_rate_witness :
  exists m,
    ASR.compute_error_rate (s "The quick brown fox.") (s "the quick fix")
      = Ok m /\
    ASR.wer m == 2 # 4.
Proof.
  destruct (wer_is_edit_distance_rate
              (s "The quick brown fox.") (s "the quick fix"))
    as [(m & Hm & _ & _ & Hwer) _].
  - vm_compute. discriminate.
  - exists m. split; [exact Hm|]. rewrite Hwer. vm_compute. reflexivity.
Defined.

End Scores.

(** C9 (as the code has it): for a reference that normalises to the
    empty string, [compute_error_rate] does what the library does with
    the empty reference and the normalised hypothesis.  It has no
    handler and no fallback of its own: an exception of
    [jiwer.process_words] or of [jiwer.cer] propagates as it is, and
    values that the library returns are returned as they are.  Whether
    there is an exception is the library's choice, not the script's. *)
Theorem empty_reference_follows_library {char : Type}
    (ispunct isspace : char -> bool) (lower : list char -> list char)
    (process_words : list char -> list char -> Py.result Jiwer.WordOutput)
    (cer : list char -> list char -> Py.result Q)
    (reference hypothesis : list char) :
  Text.normalize ispunct isspace lower reference = [] ->
  let h := Text.normalize ispunct isspace lower hypothesis in
  let score :=
    Text.compute_error_rate ispunct isspace lower process_words cer
      reference hypothesis in
  (forall e, process_words [] h = Py.Raise e -> score = Py.Raise e) /\
  (forall output e,
     process_words [] h = Py.Ok output -> cer [] h = Py.Raise e ->
     score = Py.Raise e) /\
  (forall output rate,
     process_words [] h = Py.Ok output -> cer [] h = Py.Ok rate ->
     score = Py.Ok {| ASR.wer := Jiwer.wer output; ASR.mer := Jiwer.mer output;
                      ASR.wil := Jiwer.wil output; ASR.wip := Jiwer.wip output;
                      ASR.cer := rate |}).
Proof.
  intros Hempty h score. unfold score, Text.compute_error_rate.
  rewrite Hempty. fold h. split; [|split].
  - intros e ->. reflexivity.
  - intros output e -> ->. reflexivity.
  - intros output rate -> ->. reflexivity.
Qed.

Lemma empty_reference_follows_library_witness :
  Text.compute_error_rate Py.ispunct Py.isspace (map Py.lower)
    (Jiwer.process_words_of Jiwer.Refuses) (Jiwer.cer_of Jiwer.Refuses)
    (Py.s " ?!. ") (Py.s "test")
  = Py.Raise Py.ValueError.
Proof.
  apply (empty_reference_follows_library Py.ispunct Py.isspace (map Py.lower)
           (Jiwer.process_words_of Jiwer.Refuses)
           (Jiwer.cer_of Jiwer.Refuses) (Py.s " ?!. ") (Py.s "test")).
  - vm_compute. reflexivity.
  - vm_compute. reflexivity.
Defined.

(** C9 as stated fails: with a library that has fallback values for a
    reference without tokens, as the later releases of jiwer have, the
    reference [" ?!. "] normalises to the empty string and
    [compute_error_rate] raises nothing: it returns the five fallback
    values. *)
Lemma empty_reference_returns_fallback :
  Text.normalize Py.ispunct Py.isspace (map Py.lower) (Py.s " ?!. ") = [] /\
  Text.compute_error_rate Py.ispunct Py.isspace (map Py.lower)
    (Jiwer.process_words_of Jiwer.FallsBack) (Jiwer.cer_of Jiwer.FallsBack)
    (Py.s " ?!. ") (Py.s "test")
  = Py.Ok {| ASR.wer := 1; ASR.mer := 1; ASR.wil := 1; ASR.wip := 0;
             ASR.cer := 4 |} /\
  (forall e,
     Text.compute_error_rate Py.ispunct Py.isspace (map Py.lower)
       (Jiwer.process_words_of Jiwer.FallsBack) (Jiwer.cer_of Jiwer.FallsBack)
       (Py.s " ?!. ") (Py.s "test")
     <> Py.Raise e).
Proof.
  split; [vm_compute; reflexivity|].
  split; [vm_compute; reflexivity|].
  intros e. vm_compute. discriminate.
Qed.

(** ** The vosk loop *)

Section VoskFacts.
Import Py ASR.
Context {frame : Type} (K : KaldiRecognizer frame).

Lemma spaced_cons jres_text results :
  spaced (jres_text :: results) = " "%char :: jres_text ++ spaced results.
Proof. reflexivity. Qed.

(** The loop ends for every file, and extends the text by what the
    recogniser hands out. *)
Lemma recognition_loop_spec (rec : rec_state K) (wf : list frame) (text : str) :
  exists results rec',
    streams K rec wf results rec' /\
    recognition_loop K rec wf text = (text ++ spaced results, rec').
Proof.
  funelim (recognition_loop K rec wf text).
  - exists [], rec. split; [|by rewrite app_nil_r].
    destruct wf; [constructor | discriminate].
  - match goal with
    | IH : exists _ _, _ |- _ => destruct IH as (results & rec' & Hs & Hloop)
    end.
    match goal with
    | Hchunk : take 4000 wf = _, Hacc : AcceptWaveform K rec _ = _ |- _ =>
        rewrite <- Hchunk in Hacc;
        assert (wf <> []) as Hwf by (intros ->; discriminate Hchunk);
        exists results, rec'; split; [|exact Hloop];
        exact (streams_reject K _ _ _ _ _ Hwf Hacc Hs)
    end.
  - match goal with
    | IH : exists _ _, _ |- _ => destruct IH as (results & rec' & Hs & Hloop)
    end.
    match goal with
    | Hchunk : take 4000 wf = _, Hacc : AcceptWaveform K rec _ = _,
      Hres : Result K _ = _ |- _ =>
        rewrite <- Hchunk in Hacc;
        assert (wf <> []) as Hwf by (intros ->; discriminate Hchunk);
        exists (jres_text :: results), rec'; split;
          [exact (streams_accept K _ _ _ _ _ _ _ Hwf Hacc Hres Hs)|]
    end.
    rewrite Hloop, spaced_cons, <- app_assoc. reflexivity.
Qed.

(** The recogniser decides what a stream hands out. *)
Lemma streams_deterministic rec wf results1 rec1 results2 rec2 :
  streams K rec wf results1 rec1 -> streams K rec wf results2 rec2 ->
  results1 = results2 /\ rec1 = rec2.
Proof.
  intros H1. revert results2 rec2.
  induction H1 as [rec|rec wf ra jres_text rb results rec' Hwf Hacc Hres _ IH
                   |rec wf ra results rec' Hwf Hacc _ IH];
    intros results2 rec2 H2.
  - inversion H2; subst; done.
  - inversion H2 as [|? ? ? ? ? ? ? _ Hacc' Hres' Hs'|? ? ? ? ? _ Hacc' Hs'];
      subst; [done| |].
    + rewrite Hacc in Hacc'. injection Hacc' as <-.
      rewrite Hres in Hres'. injection Hres' as <- <-.
      by destruct (IH _ _ Hs') as [-> ->].
    + rewrite Hacc in Hacc'. discriminate.
  - inversion H2 as [|? ? ? ? ? ? ? _ Hacc' Hres' Hs'|? ? ? ? ? _ Hacc' Hs'];
      subst; [done| |].
    + rewrite Hacc in Hacc'. discriminate.
    + rewrite Hacc in Hacc'. injection Hacc' as <-. by apply IH.
Qed.

End VoskFacts.

(** C8 (as the code has it): the loop reads the file in chunks of 4000
    frames until a chunk is empty, and it ends for every file.  The
    returned text is made of the text of every accepted chunk, in order
    and each one after one space, then one space and the final text.  A
    chunk that is not accepted adds nothing; an accepted text that is
    empty still adds its space. *)
Theorem vosk_recognition_text {frame : Type} (K : ASR.KaldiRecognizer frame)
    (rec : ASR.rec_state K) (wf : list frame) :
  exists results rec',
    ASR.streams K rec wf results rec' /\
    ASR.vosk_recognition K rec wf
      = ASR.spaced results ++ " "%char :: ASR.FinalResult K rec' /\
    (forall results0 rec0,
       ASR.streams K rec wf results0 rec0 ->
       results0 = results /\ rec0 = rec').
Proof.
  destruct (recognition_loop_spec K rec wf []) as (results & rec' & Hs & Hloop).
  exists results, rec'. split; [exact Hs|]. split.
  - unfold ASR.vosk_recognition. rewrite Hloop. reflexivity.
  - intros results0 rec0 H0. exact (streams_deterministic K _ _ _ _ _ _ H0 Hs).
Qed.

(** C8 as stated fails: two accepted chunks without words are not
    without effect on the returned text, each of them adds a space. *)
Lemma vosk_empty_results_add_spaces :
  ASR.streams ASR.wordless tt (repeat 0 4001) [[]; []] tt /\
  ASR.vosk_recognition ASR.wordless tt (repeat 0 4001) = Py.s "   hi" /\
  ASR.vosk_recognition ASR.wordless tt (repeat 0 4001)
    <> ASR.spaced (List.filter (fun r => negb (Nat.eqb (length r) 0))
                               [[]; []])
       ++ " "%char :: ASR.FinalResult ASR.wordless tt.
Proof.
  assert (ASR.vosk_recognition ASR.wordless tt (repeat 0 4001)
          = Py.s "   hi") as Htext by (vm_compute; reflexivity).
  split; [|split; [exact Htext|]].
  - eapply (ASR.streams_accept ASR.wordless tt _ tt [] tt);
      [discriminate | reflexivity | reflexivity |].
    eapply (ASR.streams_accept ASR.wordless tt _ tt [] tt);
      [vm_compute; discriminate | reflexivity | reflexivity |].
    replace (drop 4000 (drop 4000 (repeat 0 4001))) with (@nil nat)
      by (vm_compute; reflexivity).
    constructor.
  - rewrite Htext. vm_compute. discriminate.
Qed.

(** ** The queue between the callback and the write loop *)

Section CaptureFacts.
Import Capture.
Context {block : Type}.
Implicit Types (st : state block) (trace : list (event block)).

Lemma run_from_cons st e trace :
  run_from st (e :: trace) = run_from (step st e) trace.
Proof. reflexivity. Qed.

(** Once the stream and the file are closed, nothing changes any more. *)
Lemma run_from_closed st trace : closed st = true -> run_from st trace = st.
Proof.
  intros Hc. induction trace as [|e trace IH]; [done|].
  rewrite run_from_cons. unfold step. by rewrite Hc.
Qed.

Lemma run_from_cancelled st trace :
  cancelled trace = true -> closed (run_from st trace) = true.
Proof.
  revert st. induction trace as [|e trace IH]; intros st Hc; [done|].
  rewrite run_from_cons. destruct e; try (by apply IH).
  rewrite run_from_closed; unfold step; by destruct (closed st) eqn:E.
Qed.

(** Every block that was put into the queue is in the file, in the hand
    of the write loop or still in the queue, in the order of the calls. *)
Lemma run_from_conserves trace st :
  closed st = false ->
  file st ++ option_list (taken st) ++ q st ++ enqueued trace =
  file (run_from st trace) ++ option_list (taken (run_from st trace))
    ++ q (run_from st trace).
Proof.
  revert st. induction trace as [|e trace IH]; intros st Hc.
  - simpl. by rewrite app_nil_r.
  - rewrite run_from_cons. destruct e as [indata| | |].
    + rewrite <- IH by (unfold step; by rewrite Hc).
      unfold step. rewrite Hc. simpl. by rewrite <- !app_assoc.
    + unfold step. rewrite Hc.
      destruct (taken st) as [b|] eqn:Et.
      * rewrite <- IH by done. by rewrite Et.
      * destruct (q st) as [|b rest] eqn:Eq.
        -- rewrite <- IH by done. by rewrite Et, Eq.
        -- by rewrite <- IH by done.
    + unfold step. rewrite Hc.
      destruct (taken st) as [b|] eqn:Et.
      * rewrite <- IH by done. simpl. by rewrite <- !app_assoc.
      * rewrite <- IH by done. by rewrite Et.
    + rewrite run_from_closed by (unfold step; by rewrite Hc).
      unfold step. rewrite Hc. simpl. by rewrite app_nil_r.
Qed.

Lemma run_conserves trace :
  enqueued trace =
  file (run trace) ++ option_list (taken (run trace)) ++ q (run trace).
Proof. unfold run. by rewrite <- run_from_conserves. Qed.

(** A schedule with an interrupt, cut at its first interrupt. *)
Lemma cancelled_split trace :
  cancelled trace = true ->
  exists before after,
    trace = before ++ Interrupt :: after /\ cancelled before = false.
Proof.
  induction trace as [|e trace IH]; [discriminate|].
  destruct e as [indata| | |].
  - intros Hc. destruct (IH Hc) as (before & after & -> & Hb).
    by exists (Callback indata :: before), after.
  - intros Hc. destruct (IH Hc) as (before & after & -> & Hb).
    by exists (Get :: before), after.
  - intros Hc. destruct (IH Hc) as (before & after & -> & Hb).
    by exists (Write :: before), after.
  - intros _. by exists [], trace.
Qed.

(** Without an interrupt the stream and the file stay open. *)
Lemma run_from_open st trace :
  closed st = false -> cancelled trace = false ->
  closed (run_from st trace) = false.
Proof.
  revert st. induction trace as [|e trace IH]; intros st Ho Hc; [done|].
  rewrite run_from_cons. destruct e as [indata| | |]; [| | |discriminate].
  - apply IH; [|exact Hc]. unfold step. by rewrite Ho.
  - apply IH; [|exact Hc]. unfold step. rewrite Ho.
    destruct (taken st); [done|]. by destruct (q st).
  - apply IH; [|exact Hc]. unfold step. rewrite Ho.
    by destruct (taken st).
Qed.

(** The blocks enqueued before the recording is interrupted are those
    of the schedule up to its first interrupt. *)
Lemma enqueued_until_interrupt (before after : list (event block)) :
  enqueued (before ++ Interrupt :: after) = enqueued before.
Proof.
  induction before as [|e before IH]; [done|].
  destruct e; simpl; by rewrite ?IH.
Qed.

(** The interrupt closes the stream and the file and does nothing else,
    and nothing happens after it. *)
Lemma run_interrupted (before after : list (event block)) :
  cancelled before = false ->
  run (before ++ Interrupt :: after)
  = {| q := q (run before); taken := taken (run before);
       file := file (run before); closed := true |}.
Proof.
  intros Hb. unfold run, run_from. rewrite fold_left_app.
  fold (run_from (@init block) before).
  change (fold_left step (Interrupt :: after) (run_from init before))
    with (run_from (step (run_from init before) Interrupt) after).
  assert (closed (run_from (@init block) before) = false) as Ho
    by (by apply run_from_open).
  unfold step at 1. rewrite Ho. by apply run_from_closed.
Qed.

End CaptureFacts.

(** C10: the blocks go through a first-in first-out queue from one
    producer to one consumer, so for every schedule the blocks written to
    the file are a prefix of the enqueued blocks: they are in the order
    in which the callback enqueued them, none moved and none twice.  What
    follows the prefix is the block in the hand of the write loop, if
    any, then the queue. *)
Theorem written_prefix_of_enqueued {block : Type}
    (trace : list (Capture.event block)) :
  Capture.file (Capture.run trace) `prefix_of` Capture.enqueued trace /\
  Capture.enqueued trace
    = Capture.file (Capture.run trace)
      ++ option_list (Capture.taken (Capture.run trace))
      ++ Capture.q (Capture.run trace).
Proof.
  split; [|apply run_conserves].
  eexists. apply run_conserves.
Qed.

(** C1 (as the code has it): when the recording is interrupted, the
    stream and the file are closed at once and nothing is drained.  Cut
    the schedule at its first interrupt: the recording ends in the state
    it had right before that interrupt, closed, whatever is scheduled
    afterwards.  So the file holds the blocks that were written before
    the interrupt and no other; a block that was then still in the
    queue, or taken from it and not yet written, is never written.  No
    enqueued block is missing from the file exactly when the queue was
    empty and no block was in hand at the interrupt. *)
Theorem interrupt_closes_without_draining {block : Type}
    (trace : list (Capture.event block)) :
  Capture.cancelled trace = true ->
  exists before after,
    trace = before ++ Capture.Interrupt :: after /\
    Capture.cancelled before = false /\
    let st := Capture.run before in
    Capture.closed st = false /\
    Capture.enqueued trace
      = Capture.file st ++ option_list (Capture.taken st) ++ Capture.q st /\
    (forall more,
       Capture.run (trace ++ more)
       = {| Capture.q := Capture.q st; Capture.taken := Capture.taken st;
            Capture.file := Capture.file st; Capture.closed := true |}) /\
    Capture.run trace
      = {| Capture.q := Capture.q st; Capture.taken := Capture.taken st;
           Capture.file := Capture.file st; Capture.closed := true |} /\
    (Capture.file (Capture.run trace) = Capture.enqueued trace
     <-> Capture.taken st = None /\ Capture.q st = []).
Proof.
  intros Hc. destruct (cancelled_split trace Hc) as (before & after & -> & Hb).
  exists before, after. split; [reflexivity|]. split; [exact Hb|].
  intros st.
  pose proof (run_conserves before) as Hcons. fold st in Hcons.
  split; [by apply run_from_open|].
  split; [by rewrite enqueued_until_interrupt|].
  split; [intros more; rewrite <- app_assoc, <- app_comm_cons;
          by apply run_interrupted|].
  split; [by apply run_interrupted|].
  rewrite run_interrupted by exact Hb.
  rewrite enqueued_until_interrupt, Hcons. cbn [Capture.file]. split.
  - intros Heq.
    assert (Capture.file st ++ []
            = Capture.file st ++ option_list (Capture.taken st)
                ++ Capture.q st) as Heq'
      by (by rewrite app_nil_r).
    apply app_inv_head in Heq'. symmetry in Heq'.
    apply app_eq_nil in Heq' as [Ht Hq].
    by destruct (Capture.taken st).
  - intros [-> ->]. by rewrite app_nil_r.
Qed.

Lemma interrupt_closes_without_draining_witness :
  let trace := [Capture.Callback 1; Capture.Get; Capture.Callback 2;
                Capture.Write; Capture.Callback 3; Capture.Get;
                Capture.Interrupt; Capture.Write] in
  exists before after,
    trace = before ++ Capture.Interrupt :: after /\
    Capture.cancelled before = false /\
    let st := Capture.run before in
    Capture.closed st = false /\
    Capture.enqueued trace
      = Capture.file st ++ option_list (Capture.taken st) ++ Capture.q st /\
    (forall more,
       Capture.run (trace ++ more)
       = {| Capture.q := Capture.q st; Capture.taken := Capture.taken st;
            Capture.file := Capture.file st; Capture.closed := true |}) /\
    Capture.run trace
      = {| Capture.q := Capture.q st; Capture.taken := Capture.taken st;
           Capture.file := Capture.file st; Capture.closed := true |} /\
    (Capture.file (Capture.run trace) = Capture.enqueued trace
     <-> Capture.taken st = None /\ Capture.q st = []).
Proof.
  intros trace. apply (interrupt_closes_without_draining trace).
  reflexivity.
Defined.

(** C1 as stated fails: an interrupt that arrives while a block is in
    the queue closes the file without that block, and the block stays in
    the queue. *)
Lemma interrupt_loses_queued_block :
  let trace := [Capture.Callback 1; Capture.Callback 2; Capture.Get;
                Capture.Write; Capture.Interrupt] in
  Capture.cancelled trace = true /\
  Capture.enqueued trace = [1; 2] /\
  Capture.run trace
    = {| Capture.q := [2]; Capture.taken := None;
         Capture.file := [1]; Capture.closed := true |} /\
  Capture.file (Capture.run trace) <> Capture.enqueued trace.
Proof. repeat split. discriminate. Qed.

(** ** The output file *)

Section SessionFacts.
Import Py Session.
Context {content : Type}.

Lemma open_output_spec (empty : content)
    (fs : gmap string content) (filename : option string) :
  open_output empty fs filename =
  match filename with
  | Some name =>
      match fs !! name with
      | Some _ => (fs, [], Raise OSError)
      | None => (<[name := empty]> fs, [], Ok name)
      end
  | None =>
      (<["recording.wav"%string := empty]> fs,
       if bool_decide (is_Some (fs !! "recording.wav"%string))
       then ["Removed existing file: recording.wav"%string] else [],
       Ok "recording.wav"%string)
  end.
Proof.
  unfold open_output, default_filename, SoundFile_x.
  destruct filename as [name|].
  - by destruct (fs !! name).
  - case_bool_decide as E.
    + rewrite lookup_delete_eq. by rewrite insert_delete_eq.
    + apply eq_None_not_Some in E. rewrite E. reflexivity.
Qed.

Lemma start_spec (empty : content)
    (fs : gmap string content) (filename : option string) :
  start empty fs filename =
  match filename with
  | Some name =>
      match fs !! name with
      | Some _ => Raise OSError
      | None => Ok (<[name := empty]> fs, name)
      end
  | None => Ok (<["recording.wav"%string := empty]> fs, "recording.wav"%string)
  end.
Proof.
  unfold start. rewrite open_output_spec.
  destruct filename as [name|]; [|reflexivity].
  by destruct (fs !! name).
Qed.

End SessionFacts.



(** ** The evaluation *)

Section HarnessFacts.
Import Py Harness.

(** The reference ["Test"] has a score against every sentence. *)
Lemma score_defined hypothesis :
  exists m, ASR.compute_error_rate (s "Test") hypothesis = Ok m.
Proof.
  assert (ASR.normalize (s "Test") <> []) as Hne by (vm_compute; discriminate).
  destruct (measures_defined _
              (Jiwer.wer_default (ASR.normalize hypothesis))
              (normalize_words_nonempty _ Hne)) as (out & Hout & _).
  destruct (measures_defined _
              (Jiwer.cer_default (ASR.normalize hypothesis))
              (normalize_chars_nonempty _ Hne)) as (chars & Hchars & _).
  eexists. by apply compute_error_rate_ok.
Qed.

Lemma evaluate_spec (transcribe : invocation -> str * Q)
    (language : string) (by_size : gmap string string)
    (small large : string) :
  vosk_models_by_language !! language = Some by_size ->
  by_size !! "base"%string = Some small ->
  by_size !! "large"%string = Some large ->
  exists ws wl vs vl,
    ASR.compute_error_rate (s "Test")
      (transcribe (Whisper "base" (Some language))).1 = Ok ws /\
    ASR.compute_error_rate (s "Test")
      (transcribe (Whisper "large" (Some language))).1 = Ok wl /\
    ASR.compute_error_rate (s "Test") (transcribe (Vosk small)).1 = Ok vs /\
    ASR.compute_error_rate (s "Test") (transcribe (Vosk large)).1 = Ok vl /\
    evaluate transcribe (Some language) [] =
      ([Whisper "base" (Some language); Whisper "large" (Some language);
        Vosk small; Vosk large],
       Ok [("vosk_small"%string, vs); ("vosk_large"%string, vl);
           ("whisper_small"%string, ws); ("whisper_large"%string, wl)]).
Proof.
  intros Hlang Hsmall Hlarge.
  destruct (score_defined (transcribe (Whisper "base" (Some language))).1)
    as [ws Hws].
  destruct (score_defined (transcribe (Whisper "large" (Some language))).1)
    as [wl Hwl].
  destruct (score_defined (transcribe (Vosk small)).1) as [vs Hvs].
  destruct (score_defined (transcribe (Vosk large)).1) as [vl Hvl].
  exists ws, wl, vs, vl. do 4 (split; [assumption|]).
  unfold evaluate, recognise, lift, getitem, mbind, Eval_bind, mret, Eval_ret.
  cbv beta iota. rewrite Hws. cbv beta iota. rewrite Hwl. cbv beta iota.
  rewrite Hlang. cbv beta iota. rewrite Hsmall. cbv beta iota.
  rewrite Hvs. cbv beta iota. rewrite Hlarge. cbv beta iota.
  rewrite Hvl. reflexivity.
Qed.

End HarnessFacts.

(** C2 (as the code has it): the report has one row per recogniser, each
    with the score of that recogniser's sentence against ["Test"].  The
    rows are in the order written in [model_data] (vosk_small,
    vosk_large, whisper_small, whisper_large) whereas the recognisers
    are called in the order whisper base, whisper large, vosk base, vosk
    large.  Neither order depends on the seconds a recogniser takes. *)
Theorem report_rows_in_table_order
    (transcribe : Harness.invocation -> Py.str * Q)
    (language : string) (by_size : gmap string string)
    (small large : string) :
  Harness.vosk_models_by_language !! language = Some by_size ->
  by_size !! "base"%string = Some small ->
  by_size !! "large"%string = Some large ->
  exists ws wl vs vl,
    ASR.compute_error_rate (Py.s "Test")
      (transcribe (Harness.Whisper "base" (Some language))).1 = Py.Ok ws /\
    ASR.compute_error_rate (Py.s "Test")
      (transcribe (Harness.Whisper "large" (Some language))).1 = Py.Ok wl /\
    ASR.compute_error_rate (Py.s "Test")
      (transcribe (Harness.Vosk small)).1 = Py.Ok vs /\
    ASR.compute_error_rate (Py.s "Test")
      (transcribe (Harness.Vosk large)).1 = Py.Ok vl /\
    Harness.evaluate transcribe (Some language) [] =
      ([Harness.Whisper "base" (Some language);
        Harness.Whisper "large" (Some language);
        Harness.Vosk small; Harness.Vosk large],
       Py.Ok [("vosk_small"%string, vs); ("vosk_large"%string, vl);
              ("whisper_small"%string, ws); ("whisper_large"%string, wl)]) /\
    (forall transcribe' : Harness.invocation -> Py.str * Q,
       (forall i, (transcribe' i).1 = (transcribe i).1) ->
       Harness.evaluate transcribe' (Some language) []
       = Harness.evaluate transcribe (Some language) []).
Proof.
  intros Hlang Hsmall Hlarge.
  destruct (evaluate_spec transcribe language by_size small large
              Hlang Hsmall Hlarge)
    as (ws & wl & vs & vl & Hws & Hwl & Hvs & Hvl & Heval).
  exists ws, wl, vs, vl. do 5 (split; [assumption|]).
  intros transcribe' Hsame.
  destruct (evaluate_spec transcribe' language by_size small large
              Hlang Hsmall Hlarge)
    as (ws' & wl' & vs' & vl' & Hws' & Hwl' & Hvs' & Hvl' & Heval').
  rewrite Hsame in Hws', Hwl', Hvs', Hvl'.
  rewrite Heval, Heval'. congruence.
Qed.

Lemma report_rows_in_table_order_witness :
  exists ws wl vs vl,
    ASR.compute_error_rate (Py.s "Test") (Py.s "test") = Py.Ok ws /\
    ASR.compute_error_rate (Py.s "Test") (Py.s "test") = Py.Ok wl /\
    ASR.compute_error_rate (Py.s "Test") (Py.s "test") = Py.Ok vs /\
    ASR.compute_error_rate (Py.s "Test") (Py.s "test") = Py.Ok vl /\
    Harness.evaluate (fun _ => (Py.s "test", 1%Q)) (Some "english"%string) [] =
      ([Harness.Whisper "base" (Some "english"%string);
        Harness.Whisper "large" (Some "english"%string);
        Harness.Vosk "vosk-model-small-en-us-0.15";
        Harness.Vosk "vosk-model-en-us-0.42-gigaspeech"],
       Py.Ok [("vosk_small"%string, vs); ("vosk_large"%string, vl);
              ("whisper_small"%string, ws); ("whisper_large"%string, wl)]) /\
    (forall transcribe' : Harness.invocation -> Py.str * Q,
       (forall i, (transcribe' i).1 = Py.s "test") ->
       Harness.evaluate transcribe' (Some "english"%string) []
       = Harness.evaluate (fun _ => (Py.s "test", 1%Q))
           (Some "english"%string) []).
Proof.
  apply (report_rows_in_table_order (fun _ => (Py.s "test", 1%Q))
           "english"
           (Harness.tiers "vosk-model-small-en-us-0.15"
                          "vosk-model-en-us-0.42-gigaspeech")).
  - vm_compute. reflexivity.
  - vm_compute. reflexivity.
  - vm_compute. reflexivity.
Defined.

(** C2 as stated fails: the whisper recognisers are called first and
    hear "test", the vosk recognisers are called last and hear nothing;
    the first two rows of the report hold the vosk scores, not the scores
    of the first two calls. *)
Lemma report_order_differs_from_call_order :
  let transcribe := fun i =>
    match i with
    | Harness.Whisper _ _ => (Py.s "test", 2%Q)
    | Harness.Vosk _ => (Py.s "", 1%Q)
    end in
  exists log rows,
    Harness.evaluate transcribe (Some "english"%string) []
      = (log, Py.Ok rows) /\
    log = [Harness.Whisper "base" (Some "english"%string);
           Harness.Whisper "large" (Some "english"%string);
           Harness.Vosk "vosk-model-small-en-us-0.15";
           Harness.Vosk "vosk-model-en-us-0.42-gigaspeech"] /\
    map fst rows = ["vosk_small"; "vosk_large";
                    "whisper_small"; "whisper_large"]%string /\
    map (fun i => ASR.compute_error_rate (Py.s "Test") (transcribe i).1) log
      <> map (fun row => Py.Ok row.2) rows.
Proof.
  intros transcribe. eexists. eexists.
  split; [vm_compute; reflexivity|].
  split; [reflexivity|]. split; [reflexivity|].
  vm_compute. discriminate.
Qed.

(** * Further properties *)

(** ** What the score does not see *)

Section Insensitivity.
Import Py.

Lemma ispunct_lower c : ispunct (lower c) = ispunct c.
Proof.
  destruct c as [[] [] [] [] [] [] [] []]; vm_compute; reflexivity.
Qed.

Lemma space_not_punct c : isspace c = true -> ispunct c = false.
Proof.
  destruct c as [[] [] [] [] [] [] [] []]; vm_compute; by intros.
Qed.

Lemma space_lower c : isspace c = true -> lower c = c.
Proof.
  destruct c as [[] [] [] [] [] [] [] []]; vm_compute; by intros.
Qed.

Lemma RemovePunctuation_lower t :
  Jiwer.RemovePunctuation (map lower t) = map lower (Jiwer.RemovePunctuation t).
Proof.
  unfold Jiwer.RemovePunctuation.
  induction t as [|c t IH]; [done|]. simpl.
  rewrite ispunct_lower. destruct (ispunct c); simpl; by rewrite IH.
Qed.

(** The normalised sentence depends on the lower-cased sentence only. *)
Lemma normalize_lower t : ASR.normalize (map lower t) = ASR.normalize t.
Proof.
  unfold ASR.normalize, Jiwer.ToLowerCase.
  rewrite RemovePunctuation_lower. f_equal.
  rewrite map_map. apply map_ext. intros c. apply lower_idempotent.
Qed.

Lemma normalize_same_case t t' :
  map lower t = map lower t' -> ASR.normalize t = ASR.normalize t'.
Proof. intros E. by rewrite <- (normalize_lower t), E, normalize_lower. Qed.

Lemma lower_spaces w :
  Forall (fun c => isspace c = true) w -> map lower w = w.
Proof.
  intros Hw. apply map_fixed. eapply Forall_impl; [exact Hw|].
  intros c. apply space_lower.
Qed.

End Insensitivity.

(** X1: for ASCII sentences the score does not see upper case: two
    pairs of ASCII sentences that are equal once every letter is
    lower-cased have the same outcome, whatever the library computes
    from the normalised sentences. *)
Theorem score_ignores_case
    (process_words : Py.str -> Py.str -> Py.result Jiwer.WordOutput)
    (cer : Py.str -> Py.str -> Py.result Q)
    (reference hypothesis reference' hypothesis' : Py.str) :
  Py.isascii reference = true -> Py.isascii hypothesis = true ->
  Py.isascii reference' = true -> Py.isascii hypothesis' = true ->
  map Py.lower reference = map Py.lower reference' ->
  map Py.lower hypothesis = map Py.lower hypothesis' ->
  Text.compute_error_rate Py.ispunct Py.isspace (map Py.lower)
    process_words cer reference hypothesis
  = Text.compute_error_rate Py.ispunct Py.isspace (map Py.lower)
      process_words cer reference' hypothesis'.
Proof.
  intros _ _ _ _ Hr Hh. apply Text_compute_error_rate_normalize;
    rewrite !normalize_ascii; by apply normalize_same_case.
Qed.

Lemma score_ignores_case_witness :
  ASR.compute_error_rate (Py.s "The Quick FOX") (Py.s "tHe quick Box")
  = ASR.compute_error_rate (Py.s "the quick fox") (Py.s "THE QUICK BOX").
Proof.
  rewrite <- !compute_error_rate_ascii.
  apply (score_ignores_case Jiwer.process_words Jiwer.cer
           (Py.s "The Quick FOX") (Py.s "tHe quick Box")
           (Py.s "the quick fox") (Py.s "THE QUICK BOX")).
  - vm_compute. reflexivity.
  - vm_compute. reflexivity.
  - vm_compute. reflexivity.
  - vm_compute. reflexivity.
  - vm_compute. reflexivity.
  - vm_compute. reflexivity.
Defined.

(** X2: the score does not see whitespace around a sentence, such as the
    space that [vosk_recognition] puts in front of its text: whitespace
    added before and after the reference and the hypothesis leaves the
    outcome unchanged, whatever the library computes.  This holds over
    every character set whose tables have two properties of Python's:
    no whitespace character is punctuation, and [lower] leaves
    whitespace around a sentence in place and lowers the sentence as it
    would without it. *)
Theorem score_ignores_surrounding_whitespace {char : Type}
    (ispunct isspace : char -> bool) (lower : list char -> list char)
    (process_words : list char -> list char -> Py.result Jiwer.WordOutput)
    (cer : list char -> list char -> Py.result Q)
    (reference hypothesis w1 w2 v1 v2 : list char) :
  (forall c, isspace c = true -> ispunct c = false) ->
  (forall w t w',
     Forall (fun c => isspace c = true) w ->
     Forall (fun c => isspace c = true) w' ->
     lower (w ++ t ++ w') = w ++ lower t ++ w') ->
  Forall (fun c => isspace c = true) (w1 ++ w2 ++ v1 ++ v2) ->
  Text.compute_error_rate ispunct isspace lower process_words cer
    (w1 ++ reference ++ w2) (v1 ++ hypothesis ++ v2)
  = Text.compute_error_rate ispunct isspace lower process_words cer
      reference hypothesis.
Proof.
  intros Hsp Hlower H. apply Forall_app in H as [H1 H].
  apply Forall_app in H as [H2 H]. apply Forall_app in H as [H3 H4].
  assert (forall w, Forall (fun c => isspace c = true) w ->
                    Text.RemovePunctuation ispunct w = w) as Hkeep.
  { intros w Hw. apply Text_RemovePunctuation_fixed.
    eapply Forall_impl; [exact Hw|]. exact Hsp. }
  assert (forall w t w',
            Forall (fun c => isspace c = true) w ->
            Forall (fun c => isspace c = true) w' ->
            Text.normalize ispunct isspace lower (w ++ t ++ w')
            = Text.normalize ispunct isspace lower t) as Hnorm.
  { intros w t w' Hw Hw'. unfold Text.normalize, Text.ToLowerCase.
    rewrite !Text_RemovePunctuation_app, (Hkeep w Hw), (Hkeep w' Hw').
    rewrite (Hlower w _ w' Hw Hw'). by apply Text_Strip_spaces. }
  apply Text_compute_error_rate_normalize; by apply Hnorm.
Qed.

Lemma score_ignores_surrounding_whitespace_witness :
  ASR.compute_error_rate
    (Py.s "  " ++ Py.s "test" ++ Py.s " ")
    (Py.s " " ++ Py.s "a test" ++ Py.s "")
  = ASR.compute_error_rate (Py.s "test") (Py.s "a test").
Proof.
  rewrite <- !compute_error_rate_ascii.
  apply (score_ignores_surrounding_whitespace
           Py.ispunct Py.isspace (map Py.lower) Jiwer.process_words Jiwer.cer
           (Py.s "test") (Py.s "a test")
           (Py.s "  ") (Py.s " ") (Py.s " ") (Py.s "")).
  - apply space_not_punct.
  - intros w t w' Hw Hw'.
    by rewrite !map_app, (lower_spaces w), (lower_spaces w').
  - vm_compute. repeat constructor.
Defined.

(** X3: the score does not see punctuation: a punctuation character put
    anywhere into one of the two sentences, the other one left as it
    is, leaves the outcome unchanged, over every character set and
    whatever the library computes. *)
Theorem score_ignores_punctuation {char : Type}
    (ispunct isspace : char -> bool) (lower : list char -> list char)
    (process_words : list char -> list char -> Py.result Jiwer.WordOutput)
    (cer : list char -> list char -> Py.result Q)
    (t1 t2 other : list char) (c : char) :
  ispunct c = true ->
  Text.compute_error_rate ispunct isspace lower process_words cer
    (t1 ++ c :: t2) other
  = Text.compute_error_rate ispunct isspace lower process_words cer
      (t1 ++ t2) other /\
  Text.compute_error_rate ispunct isspace lower process_words cer
    other (t1 ++ c :: t2)
  = Text.compute_error_rate ispunct isspace lower process_words cer
      other (t1 ++ t2).
Proof.
  intros Hc.
  split; apply Text_compute_error_rate_normalize;
    (reflexivity || by apply Text_normalize_punctuation).
Qed.

Lemma score_ignores_punctuation_witness :
  ASR.compute_error_rate (Py.s "well" ++ ","%char :: Py.s " then")
                         (Py.s "well then")
  = ASR.compute_error_rate (Py.s "well" ++ Py.s " then") (Py.s "well then") /\
  ASR.compute_error_rate (Py.s "well then")
                         (Py.s "well" ++ ","%char :: Py.s " then")
  = ASR.compute_error_rate (Py.s "well then") (Py.s "well" ++ Py.s " then").
Proof.
  rewrite <- !compute_error_rate_ascii.
  apply (score_ignores_punctuation
           Py.ispunct Py.isspace (map Py.lower) Jiwer.process_words Jiwer.cer
           (Py.s "well") (Py.s " then") (Py.s "well then") ","%char).
  vm_compute. reflexivity.
Defined.

(** ** When there is a score, and what it can be *)

Section ScoreRange.
Import Py.

Lemma Zpos_of_nat n : 0 < n -> Z.pos (Pos.of_nat n) = Z.of_nat n.
Proof.
  intros Hn. rewrite <- (Nat2Pos.id n) at 2 by lia.
  symmetry. apply positive_nat_Z.
Qed.

Lemma ratio_nonneg a n : (0 <= Z.of_nat a # Pos.of_nat n)%Q.
Proof. unfold Qle. simpl. lia. Qed.

Lemma ratio_le_1 a n :
  a <= n -> 0 < n -> (Z.of_nat a # Pos.of_nat n <= 1)%Q.
Proof.
  intros Hle Hn. unfold Qle. simpl. rewrite Zpos_of_nat by lia. lia.
Qed.

Lemma ratio_zero_iff a n : Z.of_nat a # Pos.of_nat n == 0 <-> a = 0.
Proof. unfold Qeq. simpl. lia. Qed.

Lemma product_in_unit_interval (x y : Q) :
  (0 <= x -> x <= 1 -> 0 <= y -> y <= 1 -> 0 <= x * y /\ x * y <= 1)%Q.
Proof.
  intros Hx0 Hx1 Hy0 Hy1. split.
  - by apply Qmult_le_0_compat.
  - rewrite <- (Qmult_1_l 1). by apply Qmult_le_compat_nonneg.
Qed.

(** The rates of a measure computation, for a reference with tokens. *)
Lemma measures_range {A : Type} `{EqDecision A} (r h : list A) out :
  r <> [] ->
  Jiwer.measures r h = Ok out ->
  (0 <= Jiwer.wer out /\
   (0 <= Jiwer.mer out /\ Jiwer.mer out <= 1) /\
   (0 <= Jiwer.wil out /\ Jiwer.wil out <= 1) /\
   (0 <= Jiwer.wip out /\ Jiwer.wip out <= 1))%Q.
Proof.
  intros Hr Hout.
  destruct r as [|x r]; [done|].
  destruct (measures_defined (x :: r) h)
    as (out' & Hout' & _ & _ & _ & HC & Hwer & Hmer & Hwip & Hwil); [done|].
  rewrite Hout in Hout'. injection Hout' as <-.
  pose proof (aligns_reference_length _ _ _ (editops_aligns (x :: r) h)) as Href.
  pose proof (aligns_hypothesis_length _ _ _ (editops_aligns (x :: r) h)) as Hhyp.
  pose proof (total_cost_counts (Jiwer.editops (x :: r) h)) as Hcost.
  simpl length in Href.
  assert (0 <= Jiwer.wip out /\ Jiwer.wip out <= 1)%Q as [Hp0 Hp1].
  { rewrite Hwip. destruct (1 <=? length h) eqn:Eh; [|done].
    apply Nat.leb_le in Eh.
    apply product_in_unit_interval;
      try apply ratio_nonneg; apply ratio_le_1; simpl length; lia. }
  split; [rewrite Hwer; apply ratio_nonneg|].
  split.
  { rewrite Hmer. split; [apply ratio_nonneg | apply ratio_le_1; lia]. }
  split; [|done].
  rewrite Hwil. split.
  - apply (Qplus_le_r _ _ (Jiwer.wip out)). by ring_simplify.
  - apply (Qplus_le_r _ _ (Jiwer.wip out)). ring_simplify.
    rewrite <- (Qplus_0_l 1) at 1. apply Qplus_le_compat; [done|apply Qle_refl].
Qed.

(** Sequences that align at no cost are equal. *)
Lemma aligns_cost_zero {A : Type} ops (r h : list A) :
  Jiwer.aligns ops r h -> Jiwer.total_cost ops = 0 -> r = h.
Proof.
  induction 1 as [|x ops r h _ IH| | |]; rewrite ?total_cost_cons;
    simpl Jiwer.cost; intros Hc; try lia; [done|].
  f_equal. apply IH. lia.
Qed.

End ScoreRange.

(** X5: for a reference that is not empty after normalisation,
    [compute_error_rate] returns metrics, and they are in range: wer and
    cer are not negative (they can exceed 1), and mer, wil and wip lie
    between 0 and 1. *)
Theorem score_in_range (reference hypothesis : Py.str) :
  ASR.normalize reference <> [] ->
  exists m,
    ASR.compute_error_rate reference hypothesis = Py.Ok m /\
    (0 <= ASR.wer m /\ 0 <= ASR.cer m /\
     (0 <= ASR.mer m /\ ASR.mer m <= 1) /\
     (0 <= ASR.wil m /\ ASR.wil m <= 1) /\
     (0 <= ASR.wip m /\ ASR.wip m <= 1))%Q.
Proof.
  intros Hne.
  pose proof (normalize_words_nonempty _ Hne) as Hwords.
  pose proof (normalize_chars_nonempty _ Hne) as Hchars.
  destruct (measures_defined _
              (Jiwer.wer_default (ASR.normalize hypothesis)) Hwords)
    as (out & Hout & _).
  destruct (measures_defined _
              (Jiwer.cer_default (ASR.normalize hypothesis)) Hchars)
    as (chars & Hcer & _).
  eexists. split; [by apply compute_error_rate_ok|]. cbn.
  destruct (measures_range _ _ _ Hwords Hout) as (Hwer & Hmer & Hwil & Hwip).
  destruct (measures_range _ _ _ Hchars Hcer) as (Hrate & _).
  repeat split; tauto.
Qed.

Lemma score_in_range_witness :
  exists m,
    ASR.compute_error_rate (Py.s "Test") (Py.s "this is a test") = Py.Ok m /\
    (0 <= ASR.wer m /\ 0 <= ASR.cer m /\
     (0 <= ASR.mer m /\ ASR.mer m <= 1) /\
     (0 <= ASR.wil m /\ ASR.wil m <= 1) /\
     (0 <= ASR.wip m /\ ASR.wip m <= 1))%Q.
Proof.
  apply (score_in_range (Py.s "Test") (Py.s "this is a test")).
  vm_compute. discriminate.
Defined.

(** X6: for a reference that is not empty after normalisation, the word
    error rate that [compute_error_rate] returns is 0 exactly when the
    normalised reference and the normalised hypothesis have the same
    words. *)
Theorem wer_zero_iff_same_words (reference hypothesis : Py.str) :
  ASR.normalize reference <> [] ->
  exists m,
    ASR.compute_error_rate reference hypothesis = Py.Ok m /\
    (ASR.wer m == 0
     <-> Jiwer.wer_default (ASR.normalize reference)
         = Jiwer.wer_default (ASR.normalize hypothesis)).
Proof.
  intros Hne.
  destruct (measures_defined _
              (Jiwer.wer_default (ASR.normalize hypothesis))
              (normalize_words_nonempty _ Hne))
    as (out & Hout & _ & _ & _ & _ & Hwer & _).
  destruct (measures_defined _
              (Jiwer.cer_default (ASR.normalize hypothesis))
              (normalize_chars_nonempty _ Hne)) as (chars & Hchars & _).
  eexists. split; [by apply compute_error_rate_ok|].
  cbn. rewrite Hwer, ratio_zero_iff. split.
  - intros Hcost. eapply aligns_cost_zero; [apply editops_aligns | exact Hcost].
  - intros <-. apply editops_same_cost.
Qed.

Lemma wer_zero_iff_same_words_witness :
  exists m,
    ASR.compute_error_rate (Py.s "Hello, world!") (Py.s "  hello   WORLD ")
      = Py.Ok m /\
    (ASR.wer m == 0
     <-> Jiwer.wer_default (ASR.normalize (Py.s "Hello, world!"))
         = Jiwer.wer_default (ASR.normalize (Py.s "  hello   WORLD "))).
Proof.
  apply (wer_zero_iff_same_words (Py.s "Hello, world!")
           (Py.s "  hello   WORLD ")).
  vm_compute. discriminate.
Defined.

(** ** How the vosk loop feeds the recogniser *)

Section FeedFacts.
Import Py ASR.
Context {frame : Type}.

(** One round of the loop. *)
Lemma recognition_loop_unfold (K : KaldiRecognizer frame)
    (rec : rec_state K) (wf : list frame) (text : str) :
  recognition_loop K rec wf text =
  match take 4000 wf with
  | [] => (text, rec)
  | f :: data =>
      let '(accepted, rec1) := AcceptWaveform K rec (f :: data) in
      if accepted
      then let '(jres_text, rec2) := Result K rec1 in
           recognition_loop K rec2 (drop 4000 wf) (text ++ " "%char :: jres_text)
      else recognition_loop K rec1 (drop 4000 wf) text
  end.
Proof.
  funelim (recognition_loop K rec wf text).
  - match goal with H : take 4000 wf = _ |- _ => by rewrite H end.
  - match goal with
    | H : take 4000 wf = _, H' : AcceptWaveform K rec _ = _ |- _ =>
        by rewrite H, H'
    end.
  - match goal with
    | H : take 4000 wf = _, H' : AcceptWaveform K rec _ = _,
      H'' : Result K _ = _ |- _ => by rewrite H, H', H''
    end.
Qed.

(** The chunk number [i] of a file read [n] frames at a time. *)
Lemma chunk_shift (n i : nat) (wf : list frame) (chunks : list (list frame)) :
  0 < n -> wf <> [] ->
  (forall j, chunks !! j =
             if n * j <? length (drop n wf)
             then Some (take n (drop (n * j) (drop n wf))) else None) ->
  (take n wf :: chunks) !! i =
  if n * i <? length wf then Some (take n (drop (n * i) wf)) else None.
Proof.
  intros Hn Hwf Hchunks.
  assert (0 < length wf) by (destruct wf; [done | simpl; lia]).
  destruct i as [|j].
  - rewrite Nat.mul_0_r. simpl.
    by rewrite (proj2 (Nat.ltb_lt 0 (length wf))).
  - simpl lookup. rewrite Hchunks, length_drop, drop_drop.
    replace (n + n * j) with (n * S j) by lia.
    destruct (n * j <? length wf - n) eqn:E1;
      destruct (n * S j <? length wf) eqn:E2; try done.
    + apply Nat.ltb_lt in E1. apply Nat.ltb_ge in E2. lia.
    + apply Nat.ltb_ge in E1. apply Nat.ltb_lt in E2. lia.
Qed.

Lemma logged_loop (K : KaldiRecognizer frame) (bound : nat) :
  forall (wf : list frame) (rec : rec_state K) (log : list (list frame))
         (text : str),
    length wf <= bound ->
    exists text' rec' chunks,
      recognition_loop (Feed.logged K) (rec, log) wf text
        = (text', (rec', log ++ chunks)) /\
      recognition_loop K rec wf text = (text', rec') /\
      concat chunks = wf /\
      (forall i, chunks !! i =
                 if 4000 * i <? length wf
                 then Some (take 4000 (drop (4000 * i) wf)) else None).
Proof.
  induction bound as [|bound IH]; intros wf rec log text Hlen.
  - destruct wf; [|simpl in Hlen; lia].
    exists text, rec, []. rewrite !recognition_loop_unfold, app_nil_r.
    repeat split.
  - destruct wf as [|f wf0]; [|].
    { exists text, rec, []. rewrite !recognition_loop_unfold, app_nil_r.
      repeat split. }
    set (wf := f :: wf0) in *.
    assert (wf <> []) as Hwf by done.
    assert (length (drop 4000 wf) <= bound) as Hrest.
    { rewrite length_drop. simpl in Hlen. simpl length. lia. }
    rewrite (recognition_loop_unfold (Feed.logged K)).
    rewrite (recognition_loop_unfold K).
    destruct (take 4000 wf) as [|f' data] eqn:Echunk; [done|].
    rewrite <- Echunk. cbn [Feed.logged AcceptWaveform Result fst snd].
    destruct (AcceptWaveform K rec (take 4000 wf)) as [[|] rec1].
    + cbn [Feed.logged Result fst snd].
      destruct (Result K rec1) as [jres_text rec2].
      destruct (IH (drop 4000 wf) rec2 (log ++ [take 4000 wf])
                  (text ++ " "%char :: jres_text) Hrest)
        as (text' & rec' & chunks & Hlogged & Hplain & Hconcat & Hchunks).
      exists text', rec', (take 4000 wf :: chunks).
      rewrite Hlogged, Hplain, <- app_assoc.
      split; [done|]. split; [done|]. split.
      { rewrite concat_cons, Hconcat. apply take_drop. }
      intros i. apply chunk_shift; [lia | done | exact Hchunks].
    + destruct (IH (drop 4000 wf) rec1 (log ++ [take 4000 wf]) text Hrest)
        as (text' & rec' & chunks & Hlogged & Hplain & Hconcat & Hchunks).
      exists text', rec', (take 4000 wf :: chunks).
      rewrite Hlogged, Hplain, <- app_assoc.
      split; [done|]. split; [done|]. split.
      { rewrite concat_cons, Hconcat. apply take_drop. }
      intros i. apply chunk_shift; [lia | done | exact Hchunks].
Qed.

End FeedFacts.

(** X7: [vosk_recognition] passes every frame of the file to
    [AcceptWaveform] exactly once and in file order: chunk number [i] is
    the 4000 frames from frame [4000 * i] on (fewer at the end of the
    file), no chunk is empty and nothing is passed after the last frame.
    Keeping the record of the chunks does not change the sentence. *)
Theorem vosk_feeds_every_frame_once {frame : Type}
    (K : ASR.KaldiRecognizer frame) (rec : ASR.rec_state K)
    (wf : list frame) :
  exists text rec' chunks,
    ASR.recognition_loop (Feed.logged K) (rec, []) wf []
      = (text, (rec', chunks)) /\
    concat chunks = wf /\
    (forall i, chunks !! i =
               if 4000 * i <? length wf
               then Some (take 4000 (drop (4000 * i) wf)) else None) /\
    ASR.vosk_recognition (Feed.logged K) (rec, []) wf
      = ASR.vosk_recognition K rec wf.
Proof.
  destruct (logged_loop K (length wf) wf rec [] [] (Nat.le_refl _))
    as (text & rec' & chunks & Hlogged & Hplain & Hconcat & Hchunks).
  exists text, rec', chunks. rewrite app_nil_l in Hlogged.
  split; [exact Hlogged|]. split; [exact Hconcat|]. split; [exact Hchunks|].
  unfold ASR.vosk_recognition. by rewrite Hlogged, Hplain.
Qed.

(** ** The sentence of the cloud recogniser *)

Section GoogleFacts.
Import Py Google.

Lemma transcripts_returned results printed0 sentence0 printed sentence :
  transcripts results printed0 sentence0 = Returned printed sentence <->
  exists firsts,
    map (fun result => head (alternatives result)) results = map Some firsts /\
    sentence = sentence0 ++ concat (map transcript firsts) /\
    printed = printed0
              ++ map (fun alt => s "Transcript: " ++ transcript alt) firsts.
Proof.
  revert printed0 sentence0.
  induction results as [|result results IH]; intros printed0 sentence0; simpl.
  - split.
    + intros [= <- <-]. exists []. by rewrite !app_nil_r.
    + intros (firsts & Hmap & -> & ->). destruct firsts; [|done].
      simpl. by rewrite !app_nil_r.
  - destruct (alternatives result) as [|alt alts]; simpl.
    + split; [done|]. intros (firsts & Hmap & _). by destruct firsts.
    + rewrite IH. split.
      * intros (firsts & Hmap & -> & ->). exists (alt :: firsts).
        simpl. rewrite Hmap, <- !app_assoc. done.
      * intros (firsts & Hmap & -> & ->).
        destruct firsts as [|alt' firsts]; [done|].
        simpl in Hmap. injection Hmap as <- Hmap.
        exists firsts. simpl. by rewrite <- !app_assoc.
Qed.

Lemma transcripts_index_error results printed0 sentence0 printed :
  transcripts results printed0 sentence0 = IndexError printed <->
  exists before result after firsts,
    results = before ++ result :: after /\
    alternatives result = [] /\
    map (fun result => head (alternatives result)) before = map Some firsts /\
    printed = printed0
              ++ map (fun alt => s "Transcript: " ++ transcript alt) firsts.
Proof.
  revert printed0 sentence0.
  induction results as [|result results IH]; intros printed0 sentence0; simpl.
  - split; [done|]. intros (before & r & after & firsts & Hres & _).
    by destruct before.
  - destruct (alternatives result) as [|alt alts] eqn:Ealts; simpl.
    + split.
      * intros [= <-]. exists [], result, results, [].
        by rewrite app_nil_r.
      * intros (before & r & after & firsts & Hres & Hr & Hmap & ->).
        destruct before as [|b before].
        -- destruct firsts; [|done]. by rewrite app_nil_r.
        -- simpl in Hres. injection Hres as <- _.
           destruct firsts; simpl in Hmap; [done|].
           rewrite Ealts in Hmap. done.
    + rewrite IH. split.
      * intros (before & r & after & firsts & -> & Hr & Hmap & ->).
        exists (result :: before), r, after, (alt :: firsts).
        simpl. rewrite Ealts, Hmap, <- !app_assoc. done.
      * intros (before & r & after & firsts & Hres & Hr & Hmap & ->).
        destruct before as [|b before].
        -- simpl in Hres. injection Hres as <- _. congruence.
        -- simpl in Hres. injection Hres as <- ->.
           destruct firsts as [|alt' firsts]; simpl in Hmap; [done|].
           rewrite Ealts in Hmap. injection Hmap as <- Hmap.
           exists before, r, after, firsts. simpl.
           by rewrite <- !app_assoc.
Qed.

End GoogleFacts.

(** X8: [google_recognition] returns a sentence exactly when every
    result of the response has an alternative; the sentence is then the
    transcripts of the first alternatives, in the order of the response
    and with nothing between them, and one [Transcript] line is printed
    for each; the other alternatives play no part. *)
Theorem google_sentence_is_concatenation
    (results : list Google.recognition_result)
    (printed : list Py.str) (sentence : Py.str) :
  Google.google_recognition results = Google.Returned printed sentence <->
  exists firsts,
    map (fun result => head (Google.alternatives result)) results
      = map Some firsts /\
    sentence = concat (map Google.transcript firsts) /\
    printed = map (fun alt => Py.s "Transcript: " ++ Google.transcript alt)
                  firsts.
Proof. unfold Google.google_recognition. by rewrite transcripts_returned. Qed.

(** X9: [google_recognition] raises [IndexError] exactly when some
    result has no alternative; the [Transcript] lines printed by then
    are those of the results before the first such result. *)
Theorem google_index_error
    (results : list Google.recognition_result) (printed : list Py.str) :
  Google.google_recognition results = Google.IndexError printed <->
  exists before result after firsts,
    results = before ++ result :: after /\
    Google.alternatives result = [] /\
    map (fun result => head (Google.alternatives result)) before
      = map Some firsts /\
    printed = map (fun alt => Py.s "Transcript: " ++ Google.transcript alt)
                  firsts.
Proof. unfold Google.google_recognition. by rewrite transcripts_index_error. Qed.

(** ** [int_or_str] *)

Section ArgsFacts.
Import Py Args.

Lemma scan_digits_cons c t :
  scan_digits (c :: t) =
  if isdigit c then
    let next :=
      match t with
      | u :: (d :: _) as t'' =>
          if Ascii.eqb u "_" && isdigit d then scan_digits t''
          else scan_digits t
      | _ => scan_digits t
      end in
    (c :: next.1, next.2)
  else ([], c :: t).
Proof. reflexivity. Qed.

Lemma digit_not_underscore c : isdigit c = true -> Ascii.eqb c "_" = false.
Proof.
  destruct c as [[] [] [] [] [] [] [] []]; vm_compute; by intros.
Qed.

Lemma digit_not_sign c :
  isdigit c = true ->
  Ascii.eqb c "-" = false /\ Ascii.eqb c "+" = false /\ isspace_int c = false.
Proof.
  destruct c as [[] [] [] [] [] [] [] []]; vm_compute; by intros.
Qed.

(** A string of digits is scanned to its end. *)
Lemma scan_digits_all ds :
  Forall (fun c => isdigit c = true) ds -> scan_digits ds = (ds, []).
Proof.
  induction 1 as [|c ds Hc Hds IH]; [done|].
  rewrite scan_digits_cons, Hc.
  destruct ds as [|u [|d ds']]; try (by rewrite IH).
  apply Forall_cons in Hds as [Hu _].
  rewrite (digit_not_underscore u Hu). simpl andb. by rewrite IH.
Qed.

Lemma digits_of_uint_digits u :
  Forall (fun c => isdigit c = true) (digits_of_uint u).
Proof. induction u; simpl; constructor; done. Qed.

Lemma uint_of_digits_of_uint u : uint_of_digits (digits_of_uint u) = u.
Proof. induction u; simpl; [done|..]; by rewrite IHu. Qed.

(** [int] reads the digits of a number, with or without a sign. *)
Lemma int_digits max_str_digits (negative : bool) u :
  u <> Decimal.Nil ->
  max_str_digits = 0 \/ length (digits_of_uint u) <= max_str_digits ->
  int max_str_digits
      ((if negative then ["-"%char] else []) ++ digits_of_uint u)
  = Some (Z.of_int (if negative then Decimal.Neg u else Decimal.Pos u)).
Proof.
  intros Hu Hlimit. pose proof (digits_of_uint_digits u) as Hds.
  assert (exists c ds, digits_of_uint u = c :: ds) as (c & ds & E).
  { destruct u; try done; simpl; eauto. }
  assert (isdigit c = true) as Hc.
  { rewrite E in Hds. by apply Forall_cons in Hds as [? _]. }
  destruct (digit_not_sign c Hc) as (Hminus & Hplus & Hspace).
  assert ((640 <? length (digits_of_uint u)) && (0 <? max_str_digits)
          && (max_str_digits <? length (digits_of_uint u)) = false) as Hok.
  { destruct Hlimit as [-> | Hle].
    - by rewrite andb_false_r.
    - rewrite (proj2 (Nat.ltb_ge _ _) Hle). by rewrite andb_false_r. }
  unfold int. destruct negative; simpl app.
  - assert (skip_spaces ("-"%char :: digits_of_uint u)
            = "-"%char :: digits_of_uint u) as -> by reflexivity.
    change (Ascii.eqb "-" "-") with true. cbv beta iota.
    rewrite (scan_digits_all _ Hds). cbv beta iota.
    rewrite E at 1. cbn [skip_spaces]. rewrite <- ?E.
    by rewrite Hok, uint_of_digits_of_uint.
  - assert (skip_spaces (digits_of_uint u) = digits_of_uint u) as ->
      by (rewrite E; simpl; by rewrite Hspace).
    rewrite E at 1. rewrite Hminus, Hplus. cbv beta iota.
    rewrite (scan_digits_all _ Hds). cbv beta iota.
    rewrite E at 1. cbn [skip_spaces]. rewrite <- ?E.
    by rewrite Hok, uint_of_digits_of_uint.
Qed.

Lemma to_int_shape z :
  exists negative u,
    Z.to_int z = (if negative : bool then Decimal.Neg u else Decimal.Pos u) /\
    u <> Decimal.Nil.
Proof.
  pose proof (DecimalZ.of_to z) as Hz.
  destruct (Z.to_int z) as [u|u] eqn:E.
  - exists false, u. split; [done|]. intros ->.
    simpl in Hz. subst z. vm_compute in E. discriminate.
  - exists true, u. split; [done|]. intros ->.
    simpl in Hz. subst z. vm_compute in E. discriminate.
Qed.

End ArgsFacts.

(** X10: [int_or_str] gives back the number whose decimal text it is
    given: for every integer [n], [int_or_str(str(n))] is the integer
    [n], provided the text does not exceed the digit limit of [int]. *)
Theorem int_or_str_of_number (max_str_digits : nat) (n : Z) :
  max_str_digits = 0 \/ length (Args.str_of_int n) <= max_str_digits ->
  Args.int_or_str max_str_digits (Args.str_of_int n) = Args.Int n.
Proof.
  intros Hlimit. unfold Args.int_or_str, Args.str_of_int in *.
  destruct (to_int_shape n) as (negative & u & E & Hu).
  pose proof (DecimalZ.of_to n) as Hn. rewrite E in *.
  destruct negative.
  - pose proof (int_digits max_str_digits true u Hu) as Hint.
    simpl app in Hint. rewrite Hint, Hn; [done|].
    destruct Hlimit as [-> | Hle]; [by left | right; simpl in Hle; lia].
  - pose proof (int_digits max_str_digits false u Hu) as Hint.
    simpl app in Hint. rewrite Hint, Hn; [done|].
    destruct Hlimit as [-> | Hle]; [by left | by right].
Qed.

Lemma int_or_str_of_number_witness :
  Args.int_or_str 4300 (Args.str_of_int (-1024)) = Args.Int (-1024).
Proof.
  apply (int_or_str_of_number 4300 (-1024)). right. vm_compute. lia.
Defined.

Section ArgsShape.
Import Py Args.

Lemma skip_spaces_split t :
  exists w, t = w ++ skip_spaces t /\ Forall (fun c => isspace_int c = true) w.
Proof.
  induction t as [|c t (w & Ht & Hw)]; simpl; [by exists []|].
  destruct (isspace_int c) eqn:E; [|by exists []].
  exists (c :: w). simpl. rewrite <- Ht. split; [done|]. by constructor.
Qed.

Lemma skip_spaces_nil t :
  skip_spaces t = [] -> Forall (fun c => isspace_int c = true) t.
Proof.
  intros E. destruct (skip_spaces_split t) as (w & Ht & Hw).
  rewrite E, app_nil_r in Ht. by subst.
Qed.

(** What [scan_digits] passes over is made of digits and underscores. *)
Lemma scan_digits_consumed (bound : nat) :
  forall t, length t <= bound ->
    exists consumed,
      t = consumed ++ (scan_digits t).2 /\
      Forall (fun c => isdigit c || Ascii.eqb c "_" = true) consumed.
Proof.
  induction bound as [|bound IH]; intros t Hlen.
  - destruct t; [|simpl in Hlen; lia]. by exists [].
  - destruct t as [|c t]; [by exists []|]. simpl in Hlen.
    rewrite scan_digits_cons. destruct (isdigit c) eqn:Ec; [|by exists []].
    destruct t as [|u [|d t'']].
    + exists [c]. split; [done|]. constructor; [by rewrite Ec|done].
    + destruct (IH [u]) as (consumed & Hu & Hall); [simpl in *; lia|].
      exists (c :: consumed). cbn [fst snd]. rewrite <- app_comm_cons, <- Hu.
      split; [done|]. constructor; [by rewrite Ec|done].
    + destruct (Ascii.eqb u "_" && isdigit d) eqn:Eu.
      * apply andb_true_iff in Eu as [Eu Ed].
        destruct (IH (d :: t'')) as (consumed & Hd & Hall);
          [simpl in *; lia|].
        exists (c :: u :: consumed). cbn [fst snd].
        rewrite <- !app_comm_cons, <- Hd.
        split; [done|].
        constructor; [by rewrite Ec|].
        constructor; [by rewrite Eu, orb_true_r|done].
      * destruct (IH (u :: d :: t'')) as (consumed & Hu & Hall);
          [simpl in *; lia|].
        exists (c :: consumed). cbn [fst snd]. rewrite <- app_comm_cons, <- Hu.
        split; [done|]. constructor; [by rewrite Ec|done].
Qed.

Lemma scan_digits_head t :
  (scan_digits t).1 <> [] -> exists c t', t = c :: t' /\ isdigit c = true.
Proof.
  destruct t as [|c t]; [done|]. rewrite scan_digits_cons.
  destruct (isdigit c) eqn:Ec; [|done]. eauto.
Qed.

(** The shape of a text that [int] accepts. *)
Lemma int_shape max_str_digits text n :
  int max_str_digits text = Some n ->
  Forall (fun c => isdigit c || isspace_int c || Ascii.eqb c "-"
                   || Ascii.eqb c "+" || Ascii.eqb c "_" = true) text /\
  exists c, In c text /\ isdigit c = true.
Proof.
  intros Hint. unfold int in Hint.
  destruct (skip_spaces_split text) as (w & Htext & Hw).
  assert (forall sign t1,
            Forall (fun c => Ascii.eqb c "-" || Ascii.eqb c "+" = true) sign ->
            skip_spaces text = sign ++ t1 ->
            (exists ds rest, scan_digits t1 = (ds, rest) /\ ds <> []
                             /\ skip_spaces rest = []) ->
            Forall (fun c => isdigit c || isspace_int c || Ascii.eqb c "-"
                             || Ascii.eqb c "+" || Ascii.eqb c "_" = true) text
            /\ exists c, In c text /\ isdigit c = true) as Hgen.
  { intros sign t1 Hsign Hskip (ds & rest & Hscan & Hds & Hrest).
    destruct (scan_digits_consumed (length t1) t1 (Nat.le_refl _))
      as (consumed & Ht1 & Hconsumed).
    rewrite Hscan in Ht1. cbn [snd] in Ht1.
    destruct (scan_digits_head t1) as (c & t' & Hc & Hdigit);
      [by rewrite Hscan|].
    apply skip_spaces_nil in Hrest.
    rewrite Htext, Hskip. split.
    - rewrite Ht1. repeat apply Forall_app_2.
      + eapply Forall_impl; [exact Hw|]. intros a ->.
        by rewrite orb_true_r.
      + eapply Forall_impl; [exact Hsign|]. intros a Ha.
        apply orb_true_iff in Ha as [-> | ->];
          by rewrite ?orb_true_r.
      + eapply Forall_impl; [exact Hconsumed|]. intros a Ha.
        apply orb_true_iff in Ha as [-> | ->]; by rewrite ?orb_true_r.
      + eapply Forall_impl; [exact Hrest|]. intros a ->.
        by rewrite orb_true_r.
    - exists c. split; [|exact Hdigit]. rewrite Hc.
      apply in_or_app. right. apply in_or_app. right. by left. }
  destruct (skip_spaces text) as [|c t'] eqn:Eskip.
  - simpl in Hint. discriminate.
  - destruct (Ascii.eqb c "-") eqn:Eminus;
      [|destruct (Ascii.eqb c "+") eqn:Eplus].
    + destruct (scan_digits t') as [ds rest] eqn:Escan.
      destruct ds as [|d ds]; [discriminate|].
      destruct (skip_spaces rest) eqn:Erest; [|discriminate].
      apply (Hgen [c] t'); [|done|by eauto 10].
      constructor; [by rewrite Eminus|done].
    + destruct (scan_digits t') as [ds rest] eqn:Escan.
      destruct ds as [|d ds]; [discriminate|].
      destruct (skip_spaces rest) eqn:Erest; [|discriminate].
      apply (Hgen [c] t'); [|done|by eauto 10].
      constructor; [by rewrite Eplus, orb_true_r|done].
    + destruct (scan_digits (c :: t')) as [ds rest] eqn:Escan.
      destruct ds as [|d ds]; [discriminate|].
      destruct (skip_spaces rest) eqn:Erest; [|discriminate].
      apply (Hgen [] (c :: t')); [done|done|by eauto 10].
Qed.

End ArgsShape.

(** X11: for an ASCII text, [int_or_str] returns an integer only when
    the text is made of digits, signs, underscores and whitespace and
    has a digit; any other ASCII text, such as a device name, comes back
    as it was given. *)
Theorem int_or_str_keeps_names (max_str_digits : nat) (text : Py.str) :
  Py.isascii text = true ->
  (exists c, In c text /\
             Args.isdigit c || Args.isspace_int c || Ascii.eqb c "-"
             || Ascii.eqb c "+" || Ascii.eqb c "_" = false)
  \/ Forall (fun c => Args.isdigit c = false) text ->
  Args.int_or_str max_str_digits text = Args.Text text.
Proof.
  intros _ Hname. unfold Args.int_or_str.
  destruct (Args.int max_str_digits text) as [n|] eqn:Hint; [|done].
  destruct (int_shape _ _ _ Hint) as (Hall & d & Hd & Hdigit).
  destruct Hname as [(c & Hc & Hbad) | Hnone].
  - rewrite List.Forall_forall in Hall. rewrite (Hall c Hc) in Hbad.
    discriminate.
  - rewrite List.Forall_forall in Hnone. rewrite (Hnone d Hd) in Hdigit.
    discriminate.
Qed.

Lemma int_or_str_keeps_names_witness :
  Args.int_or_str 4300 (Py.s "hw:1") = Args.Text (Py.s "hw:1").
Proof.
  apply (int_or_str_keeps_names 4300 (Py.s "hw:1")).
  - vm_compute. reflexivity.
  - left. exists "h"%char. split; [by left | vm_compute; reflexivity].
Defined.

(** ** The write loop keeps up *)

Section CatchUp.
Import Capture.
Context {block : Type}.
Implicit Types (st : state block) (trace : list (event block)).

Lemma run_from_app st trace1 trace2 :
  run_from st (trace1 ++ trace2) = run_from (run_from st trace1) trace2.
Proof. apply fold_left_app. Qed.

Lemma enqueued_app trace1 trace2 :
  cancelled trace1 = false ->
  enqueued (trace1 ++ trace2) = enqueued trace1 ++ enqueued trace2.
Proof.
  induction trace1 as [|e trace1 IH]; intros Hc; [done|].
  destruct e; try done; simpl in *; by rewrite IH.
Qed.

(** A round of the write loop: take a block, write it. *)
Lemma rounds_drain (k : nat) :
  forall st,
    closed st = false ->
    length (q st) + length (option_list (taken st)) <= k ->
    run_from st (concat (repeat [Get; Write] k)) =
    {| q := []; taken := None;
       file := file st ++ option_list (taken st) ++ q st;
       closed := false |}.
Proof.
  induction k as [|k IH]; intros st Hst Hk.
  - destruct st as [qs [b|] fs c]; simpl in *; try lia.
    destruct qs; simpl in *; [|lia]. subst c. cbn. by rewrite ?app_nil_r.
  - simpl repeat. simpl concat. rewrite !run_from_cons.
    destruct st as [qs [b|] fs c]; simpl in Hst; subst c.
    + unfold step at 2. cbn. rewrite IH; cbn; [|done|simpl in Hk; lia].
      by rewrite <- app_assoc.
    + destruct qs as [|b rest].
      * unfold step at 2. cbn. rewrite IH; cbn; [done|done|lia].
      * unfold step at 2. cbn. rewrite IH; cbn; [|done|simpl in Hk; lia].
        by rewrite <- app_assoc.
Qed.

End CatchUp.

(** X12: the write loop loses nothing when it is given the time: after
    any recording that was not interrupted, as many more rounds of
    [q.get()] and [file.write] as there are blocks waiting (and one for
    a block in hand) bring every enqueued block into the file, and an
    interrupt that comes then closes a complete file. *)
Theorem writer_catches_up {block : Type}
    (trace : list (Capture.event block)) (k : nat) :
  Capture.cancelled trace = false ->
  length (Capture.q (Capture.run trace)) + 1 <= k ->
  let trace' :=
    trace ++ concat (repeat [Capture.Get; Capture.Write] k)
          ++ [Capture.Interrupt] in
  Capture.file (Capture.run trace') = Capture.enqueued trace' /\
  Capture.enqueued trace' = Capture.enqueued trace /\
  Capture.closed (Capture.run trace') = true.
Proof.
  intros Hc Hk trace'. unfold trace', Capture.run.
  assert (Capture.closed (Capture.run trace) = false) as Hopen
    by (by apply run_from_open).
  assert (Capture.enqueued
            (concat (repeat [@Capture.Get block; Capture.Write] k)
             ++ [Capture.Interrupt]) = []) as Hnone.
  { clear. induction k as [|k IH]; [done|]. simpl. exact IH. }
  rewrite enqueued_app, Hnone, app_nil_r by done.
  rewrite !run_from_app. fold (Capture.run trace).
  rewrite rounds_drain; [|done|].
  - cbn. by rewrite <- (run_conserves trace).
  - destruct (Capture.taken (Capture.run trace)); simpl; lia.
Qed.

Lemma writer_catches_up_witness :
  let trace := [Capture.Callback 1; Capture.Callback 2; Capture.Get;
                Capture.Callback 3] in
  let trace' :=
    trace ++ concat (repeat [Capture.Get; Capture.Write] 3)
          ++ [Capture.Interrupt] in
  Capture.file (Capture.run trace') = Capture.enqueued trace' /\
  Capture.enqueued trace' = Capture.enqueued trace /\
  Capture.closed (Capture.run trace') = true.
Proof.
  intros trace.
  apply (writer_catches_up trace 3); [reflexivity | vm_compute; lia].
Defined.

(** ** The copy in [callback] *)

Section DriverFacts.
Import Driver.

Lemma lookup_insert_other (m : gmap nat (list Z)) (block : nat) samples
    (blocks : list nat) :
  Forall (fun b => b <> block) blocks ->
  map (fun b => default [] (<[block := samples]> m !! b)) blocks
  = map (fun b => default [] (m !! b)) blocks.
Proof.
  induction 1 as [|b bs Hb _ IH]; [done|].
  simpl. by rewrite lookup_insert_ne, IH.
Qed.

Lemma step_copies st e : copies st -> copies (step st e).
Proof.
  unfold copies. intros [Hfresh Hq]. destruct e as [samples status|]; simpl.
  - split; [lia|]. apply Forall_app. split.
    + eapply Forall_impl; [exact Hq|]. simpl. lia.
    + repeat constructor; lia.
  - destruct (q st) as [|b rest] eqn:E; [by rewrite E|].
    simpl. split; [done|]. by apply Forall_cons in Hq as [_ ?].
Qed.

Lemma step_contents st e :
  copies st ->
  file (step st e) ++ queued (step st e)
  = file st ++ queued st ++ periods [e].
Proof.
  intros [Hfresh Hq]. destruct e as [samples status|]; simpl.
  - unfold queued at 1. simpl. rewrite map_app. simpl.
    rewrite !lookup_insert_eq. simpl.
    f_equal. f_equal.
    rewrite !lookup_insert_other; [done|..];
      (eapply Forall_impl; [exact Hq|]; simpl; unfold buffer; lia).
  - destruct (q st) as [|b rest] eqn:E.
    + by rewrite app_nil_r.
    + unfold queued. simpl. rewrite E. simpl.
      by rewrite app_nil_r, <- app_assoc.
Qed.

Lemma step_stderr st e : stderr (step st e) = stderr st ++ statuses [e].
Proof.
  destruct e as [samples [text|]|]; simpl; rewrite ?app_nil_r; try done.
  by destruct (q st).
Qed.

Lemma periods_cons e trace : periods (e :: trace) = periods [e] ++ periods trace.
Proof. by destruct e. Qed.

Lemma statuses_cons e trace :
  statuses (e :: trace) = statuses [e] ++ statuses trace.
Proof. by destruct e as [? [?|]|]. Qed.

Lemma fold_contents trace :
  forall st, copies st ->
    file (fold_left step trace st) ++ queued (fold_left step trace st)
      = file st ++ queued st ++ periods trace /\
    stderr (fold_left step trace st) = stderr st ++ statuses trace /\
    copies (fold_left step trace st).
Proof.
  induction trace as [|e trace IH]; intros st Hst.
  - simpl. by rewrite !app_nil_r.
  - simpl fold_left.
    destruct (IH (step st e) (step_copies st e Hst)) as (Hc & Hs & Hi).
    rewrite Hc, Hs, (periods_cons e), (statuses_cons e).
    rewrite step_stderr. split; [|split; [by rewrite <- app_assoc|done]].
    rewrite !app_assoc. f_equal. rewrite <- app_assoc.
    by apply step_contents.
Qed.

End DriverFacts.

(** X13: the driver fills one and the same buffer for every period, and
    [callback] puts a copy of it into the queue: whatever the
    interleaving of periods and writes, the blocks in the file followed
    by the samples of the arrays in the queue are the samples of the
    periods, in order, however often the buffer was filled again since;
    the arrays of the queue are never the buffer itself; and the lines
    on the error stream are the statuses of the periods that had a
    flag set, in order. *)
Theorem callback_copies_survive_the_buffer (trace : list Driver.event) :
  Driver.file (Driver.run trace) ++ Driver.queued (Driver.run trace)
    = Driver.periods trace /\
  Driver.stderr (Driver.run trace) = Driver.statuses trace /\
  Forall (fun block => block <> Driver.buffer) (Driver.q (Driver.run trace)).
Proof.
  assert (Driver.copies Driver.init) as Hinit
    by (split; [unfold Driver.buffer; simpl; lia | constructor]).
  destruct (fold_contents trace Driver.init Hinit) as (Hc & Hs & _ & Hq).
  split; [exact Hc|]. split; [exact Hs|].
  eapply Forall_impl; [exact Hq|]. simpl. lia.
Qed.

(** ** The languages of the evaluation *)

Section Languages.
Import Py Harness.

Lemma tiers_lookup small large :
  tiers small large !! "base"%string = Some small /\
  tiers small large !! "large"%string = Some large.
Proof.
  unfold tiers. split.
  - apply lookup_insert_eq.
  - rewrite lookup_insert_ne by done. apply lookup_insert_eq.
Qed.

Lemma vosk_supported language :
  language ∈ ["english"; "italian"; "spanish"; "catalan"; "french"]%string ->
  exists small large,
    vosk_models_by_language !! language = Some (tiers small large).
Proof.
  intros Hl. repeat (apply elem_of_cons in Hl as [-> | Hl]);
    [by eexists _, _ ..|]. by apply elem_of_nil in Hl.
Qed.

Lemma vosk_unsupported language :
  language ∉ ["english"; "italian"; "spanish"; "catalan"; "french"]%string ->
  vosk_models_by_language !! language = None.
Proof. intros Hl. by apply not_elem_of_list_to_map_1. Qed.

Lemma google_supported language :
  is_Some (Report.google_language_id !! language) <->
  language ∈ ["english"; "italian"; "spanish"; "catalan"; "french"]%string.
Proof.
  split.
  - intros [code Hcode].
    destruct (decide (language ∈ ["english"; "italian"; "spanish";
                                  "catalan"; "french"]%string)) as [|Hn];
      [done|].
    unfold Report.google_language_id in Hcode.
    rewrite not_elem_of_list_to_map_1 in Hcode; done.
  - intros Hl. repeat (apply elem_of_cons in Hl as [-> | Hl]);
      [by eexists ..|]. by apply elem_of_nil in Hl.
Qed.

(** A recogniser that always returns makes [evaluate_or_raise] the
    [evaluate] of the report. *)
Lemma evaluate_returning (transcribe : invocation -> str * Q)
    (target_language : option string) :
  evaluate_or_raise (fun i => Ok (transcribe i)) target_language
  = evaluate transcribe target_language.
Proof. reflexivity. Qed.

(** The evaluation, step by step: it ends at the first call that raises
    and at the first key that is missing. *)
Lemma evaluate_or_raise_spec (transcribe : invocation -> result (str * Q))
    (target_language : option string) :
  evaluate_or_raise transcribe target_language [] =
  let base := Whisper "base" target_language in
  let large := Whisper "large" target_language in
  match transcribe base with
  | Raise e => ([base], Raise e)
  | Ok whisper_s =>
  match transcribe large with
  | Raise e => ([base; large], Raise e)
  | Ok whisper_l =>
  match getitem vosk_models_by_language target_language with
  | Raise e => ([base; large], Raise e)
  | Ok by_size =>
  match getitem by_size (Some "base"%string) with
  | Raise e => ([base; large], Raise e)
  | Ok vosk_small_model =>
  match transcribe (Vosk vosk_small_model) with
  | Raise e => ([base; large; Vosk vosk_small_model], Raise e)
  | Ok vosk_s =>
  match getitem by_size (Some "large"%string) with
  | Raise e => ([base; large; Vosk vosk_small_model], Raise e)
  | Ok vosk_large_model =>
  match transcribe (Vosk vosk_large_model) with
  | Raise e =>
      ([base; large; Vosk vosk_small_model; Vosk vosk_large_model], Raise e)
  | Ok vosk_l =>
      ([base; large; Vosk vosk_small_model; Vosk vosk_large_model],
       ws ← ASR.compute_error_rate (s "Test") whisper_s.1;
       wl ← ASR.compute_error_rate (s "Test") whisper_l.1;
       vs ← ASR.compute_error_rate (s "Test") vosk_s.1;
       vl ← ASR.compute_error_rate (s "Test") vosk_l.1;
       mret [("vosk_small"%string, vs); ("vosk_large"%string, vl);
             ("whisper_small"%string, ws); ("whisper_large"%string, wl)])
  end end end end end end end.
Proof.
  unfold evaluate_or_raise, recognise_or_raise, lift, mbind, Eval_bind,
    mret, Eval_ret. cbv beta iota zeta.
  destruct (transcribe (Whisper "base" target_language))
    as [whisper_s|e]; [|reflexivity].
  destruct (score_defined whisper_s.1) as [ws Hws]. rewrite !Hws.
  cbv beta iota.
  destruct (transcribe (Whisper "large" target_language))
    as [whisper_l|e]; [|reflexivity].
  destruct (score_defined whisper_l.1) as [wl Hwl]. rewrite !Hwl.
  cbv beta iota.
  destruct (getitem vosk_models_by_language target_language)
    as [by_size|e]; [|reflexivity].
  destruct (getitem by_size (Some "base"%string))
    as [vosk_small_model|e]; [|reflexivity].
  destruct (transcribe (Vosk vosk_small_model)) as [vosk_s|e]; [|reflexivity].
  destruct (score_defined vosk_s.1) as [vs Hvs]. rewrite !Hvs.
  cbv beta iota.
  destruct (getitem by_size (Some "large"%string))
    as [vosk_large_model|e]; [|reflexivity].
  destruct (transcribe (Vosk vosk_large_model)) as [vosk_l|e]; [|reflexivity].
  destruct (score_defined vosk_l.1) as [vl Hvl]. rewrite !Hvl.
  reflexivity.
Qed.

End Languages.

(** X14: the evaluation ends with a report exactly when the target
    language is one of the five languages of [google_language_id]
    (english, italian, spanish, catalan, french), which are also the
    languages that have vosk models of both sizes, and the four
    recognitions (whisper base and large, vosk with the small and the
    large model of the language) all return. *)
Theorem evaluate_reports_iff_supported
    (transcribe : Harness.invocation -> Py.result (Py.str * Q))
    (target_language : option string) :
  (exists rows,
     (Harness.evaluate_or_raise transcribe target_language []).2
     = Py.Ok rows)
  <-> exists language small large whisper_s whisper_l vosk_s vosk_l,
        target_language = Some language /\
        is_Some (Report.google_language_id !! language) /\
        Harness.vosk_models_by_language !! language
          = Some (Harness.tiers small large) /\
        transcribe (Harness.Whisper "base" target_language)
          = Py.Ok whisper_s /\
        transcribe (Harness.Whisper "large" target_language)
          = Py.Ok whisper_l /\
        transcribe (Harness.Vosk small) = Py.Ok vosk_s /\
        transcribe (Harness.Vosk large) = Py.Ok vosk_l.
Proof.
  rewrite evaluate_or_raise_spec. cbv zeta. split.
  - intros [rows Hrows].
    destruct (transcribe (Harness.Whisper "base" target_language))
      as [whisper_s|e] eqn:Hs; [|discriminate].
    destruct (transcribe (Harness.Whisper "large" target_language))
      as [whisper_l|e] eqn:Hl; [|discriminate].
    destruct target_language as [language|]; [|discriminate].
    destruct (decide (language ∈ ["english"; "italian"; "spanish";
                                  "catalan"; "french"]%string)) as [Hin|Hn].
    + destruct (vosk_supported language Hin) as (small & large & Hvosk).
      destruct (tiers_lookup small large) as [Hsmall Hlarge].
      unfold Harness.getitem in Hrows. rewrite Hvosk, Hsmall in Hrows.
      destruct (transcribe (Harness.Vosk small)) as [vosk_s|e] eqn:Hvs;
        [|discriminate].
      rewrite Hlarge in Hrows.
      destruct (transcribe (Harness.Vosk large)) as [vosk_l|e] eqn:Hvl;
        [|discriminate].
      exists language, small, large, whisper_s, whisper_l, vosk_s, vosk_l.
      split; [done|]. split; [by apply google_supported|]. done.
    + unfold Harness.getitem in Hrows.
      rewrite (vosk_unsupported language Hn) in Hrows. discriminate.
  - intros (language & small & large & whisper_s & whisper_l & vosk_s
            & vosk_l & -> & _ & Hvosk & -> & -> & Hvs & Hvl).
    destruct (tiers_lookup small large) as [Hsmall Hlarge].
    unfold Harness.getitem. rewrite Hvosk, Hsmall, Hvs, Hlarge, Hvl.
    destruct (score_defined whisper_s.1) as [ws ->].
    destruct (score_defined whisper_l.1) as [wl ->].
    destruct (score_defined vosk_s.1) as [vs ->].
    destruct (score_defined vosk_l.1) as [vl ->].
    by eexists.
Qed.

(** X15: with no target language, or with one that has no vosk models,
    the evaluation makes no report and starts no vosk recognition: it
    ends with what the first whisper recognition raises, or with what
    the second one raises, or, when both return, with [KeyError] after
    them. *)
Theorem evaluate_unsupported_language
    (transcribe : Harness.invocation -> Py.result (Py.str * Q))
    (target_language : option string) :
  (forall language,
     target_language = Some language ->
     Harness.vosk_models_by_language !! language = None) ->
  Harness.evaluate_or_raise transcribe target_language [] =
    match transcribe (Harness.Whisper "base" target_language) with
    | Py.Raise e => ([Harness.Whisper "base" target_language], Py.Raise e)
    | Py.Ok _ =>
        match transcribe (Harness.Whisper "large" target_language) with
        | Py.Raise e =>
            ([Harness.Whisper "base" target_language;
              Harness.Whisper "large" target_language], Py.Raise e)
        | Py.Ok _ =>
            ([Harness.Whisper "base" target_language;
              Harness.Whisper "large" target_language],
             Py.Raise Py.KeyError)
        end
    end.
Proof.
  intros Hnone. rewrite evaluate_or_raise_spec. cbv zeta.
  destruct (transcribe (Harness.Whisper "base" target_language));
    [|reflexivity].
  destruct (transcribe (Harness.Whisper "large" target_language));
    [|reflexivity].
  destruct target_language as [language|]; [|reflexivity].
  unfold Harness.getitem at 1. by rewrite (Hnone language).
Qed.

Lemma evaluate_unsupported_language_witness :
  Harness.evaluate_or_raise
    (fun i => match i with
              | Harness.Whisper "large" _ => Py.Raise Py.RuntimeError
              | _ => Py.Ok (Py.s "test", 1%Q)
              end) (Some "german"%string) [] =
    ([Harness.Whisper "base" (Some "german"%string);
      Harness.Whisper "large" (Some "german"%string)],
     Py.Raise Py.RuntimeError) /\
  Harness.evaluate_or_raise
    (fun _ => Py.Ok (Py.s "test", 1%Q)) (Some "german"%string) [] =
    ([Harness.Whisper "base" (Some "german"%string);
      Harness.Whisper "large" (Some "german"%string)],
     Py.Raise Py.KeyError).
Proof.
  split.
  - apply (evaluate_unsupported_language
             (fun i => match i with
                       | Harness.Whisper "large" _ => Py.Raise Py.RuntimeError
                       | _ => Py.Ok (Py.s "test", 1%Q)
                       end) (Some "german"%string)).
    intros language [= <-]. vm_compute. reflexivity.
  - apply (evaluate_unsupported_language
             (fun _ => Py.Ok (Py.s "test", 1%Q)) (Some "german"%string)).
    intros language [= <-]. vm_compute. reflexivity.
Defined.

(** ** The table of the report *)

Section TableFacts.
Import Py Report.
Context (str_of_float : Q -> str).

Lemma ljust_length width text :
  length (ljust width text) = Nat.max width (length text).
Proof. unfold ljust. rewrite length_app, repeat_length. lia. Qed.

(** An entry is not longer than its column is wide. *)
Lemma cell_fits model_data model i :
  model ∈ model_data -> i < 6 ->
  length (nth i (cells str_of_float model) [])
  <= nth i (column_widths str_of_float model_data) 0.
Proof.
  intros Hin Hi. unfold column_widths.
  assert (forall f : nat -> nat, nth i (map f (seq 0 6)) 0 = f i) as ->.
  { intros f. do 6 (destruct i as [|i]; [reflexivity|]). lia. }
  apply max_list_elem_of_le, list_elem_of_fmap.
  by exists model.
Qed.

Lemma column_widths_sum model_data :
  list_sum (column_widths str_of_float model_data) =
  nth 0 (column_widths str_of_float model_data) 0
  + nth 1 (column_widths str_of_float model_data) 0
  + nth 2 (column_widths str_of_float model_data) 0
  + nth 3 (column_widths str_of_float model_data) 0
  + nth 4 (column_widths str_of_float model_data) 0
  + nth 5 (column_widths str_of_float model_data) 0.
Proof. unfold column_widths. simpl. lia. Qed.

Lemma row_line_length model_data model :
  model ∈ model_data ->
  length (row_line str_of_float (column_widths str_of_float model_data) model)
  = list_sum (column_widths str_of_float model_data) + 20.
Proof.
  intros Hin. rewrite column_widths_sum.
  pose proof (cell_fits model_data model 0 Hin) as H0.
  pose proof (cell_fits model_data model 1 Hin) as H1.
  pose proof (cell_fits model_data model 2 Hin) as H2.
  pose proof (cell_fits model_data model 3 Hin) as H3.
  pose proof (cell_fits model_data model 4 Hin) as H4.
  pose proof (cell_fits model_data model 5 Hin) as H5.
  set (widths := column_widths str_of_float model_data) in *.
  unfold row_line. cbn [cells values_line Nat.add].
  cbn [cells nth] in H0, H1, H2, H3, H4, H5.
  rewrite !length_app, !ljust_length. cbn [s list_ascii_of_string length].
  lia.
Qed.

Lemma border_length widths :
  length (border widths) = list_sum widths + 15.
Proof.
  unfold border. cbn [length]. rewrite length_app, repeat_length.
  simpl. lia.
Qed.

Lemma header_length widths :
  list_sum [nth 0 widths 0; nth 1 widths 0; nth 2 widths 0;
            nth 3 widths 0; nth 4 widths 0; nth 5 widths 0] + 19
  <= length (header widths).
Proof.
  unfold header. rewrite !length_app, !ljust_length.
  unfold list_sum. cbn [s list_ascii_of_string length fold_right]. lia.
Qed.

End TableFacts.



(** X17: the border lines do not span the table: a border is 5
    characters shorter than every row line (4 without the space that
    ends a row line) and at least 4 characters shorter than the header
    line. *)
Theorem table_border_too_short (str_of_float : Q -> Py.str)
    (model_data : list (string * ASR.ErrorMetrics))
    (model : string * ASR.ErrorMetrics) :
  model ∈ model_data ->
  let widths := Report.column_widths str_of_float model_data in
  length (Report.border widths) + 5
    = length (Report.row_line str_of_float widths model) /\
  length (Report.border widths) + 4 <= length (Report.header widths).
Proof.
  intros Hin widths. rewrite border_length. split.
  - unfold widths. rewrite row_line_length by done. lia.
  - pose proof (header_length widths) as Hh.
    unfold widths in *. rewrite column_widths_sum.
    unfold list_sum in Hh. cbn [fold_right] in Hh. lia.
Qed.

Lemma table_border_too_short_witness :
  let str_of_float := fun x : Q => if Qeq_bool x 0 then Py.s "0.0"
                                   else Py.s "0.25" in
  let perfect := {| ASR.wer := 0; ASR.mer := 0; ASR.wil := 0;
                    ASR.wip := 1; ASR.cer := 0 |} in
  let model_data := [("vosk_small"%string, perfect)] in
  let widths := Report.column_widths str_of_float model_data in
  length (Report.border widths) + 5
    = length (Report.row_line str_of_float widths
                ("vosk_small"%string, perfect)) /\
  length (Report.border widths) + 4 <= length (Report.header widths).
Proof.
  intros str_of_float perfect model_data.
  apply (table_border_too_short str_of_float model_data
           ("vosk_small"%string, perfect)).
  apply elem_of_cons. by left.
Defined.

(** ** The files that the start leaves alone *)

(** X18: a start that succeeds creates the chosen file with no audio in
    it and touches no other file of the directory; the chosen file is
    the given name, or [recording.wav] when none was given. *)
Theorem start_touches_one_file {content : Type} (empty : content)
    (fs fs' : gmap string content) (filename : option string)
    (name : string) :
  Session.start empty fs filename = Py.Ok (fs', name) ->
  name = default "recording.wav"%string filename /\
  fs' !! name = Some empty /\
  (forall other, other <> name -> fs' !! other = fs !! other).
Proof.
  rewrite start_spec. destruct filename as [given|].
  - destruct (fs !! given) eqn:E; [discriminate|].
    intros [= <- <-]. split; [done|]. split; [apply lookup_insert_eq|].
    intros other Hne. by apply lookup_insert_ne.
  - intros [= <- <-]. split; [done|]. split; [apply lookup_insert_eq|].
    intros other Hne. by apply lookup_insert_ne.
Qed.

Lemma start_touches_one_file_witness :
  let fs : gmap string nat :=
    <["recording.wav"%string := 7]> (<["notes.txt"%string := 9]> ∅) in
  "recording.wav"%string = default "recording.wav"%string None /\
  (<["recording.wav"%string := 0]> fs) !! "recording.wav"%string = Some 0 /\
  (forall other, other <> "recording.wav"%string ->
     (<["recording.wav"%string := 0]> fs) !! other = fs !! other).
Proof.
  intros fs.
  apply (start_touches_one_file 0 fs (<["recording.wav"%string := 0]> fs)
           None "recording.wav"%string).
  vm_compute. reflexivity.
Defined.
